(** * Durable CRDT replica (index.ts): snapshot + update log, compaction, sync

    A shallow embedding of the Node.js replica of the sample.  The SQLite
    file is a record of two tables, the async functions of [index.ts] are
    programs of a state-and-exception monad over that record, the yjs
    library and the remote peer are interfaces.  Handlers run one at a time
    (no interleaving of two requests is modelled) and SQL statements do not
    fail. *)

From stdpp Require Import base option list sorting strings gmap.
From Stdlib Require Import ZArith.
From Stdlib.Strings Require Import Byte.

Local Open Scope Z_scope.

(** ** Values *)

(** A [Uint8Array] / [Buffer] / BLOB. *)
Abbreviation bytes := (list byte).

(** [u8.byteLength] *)
Definition byteLength (b : bytes) : Z := Z.of_nat (length b).

(** JavaScript primitives that travel in JSON and in the shared map.
    Numbers are the integers (sequence numbers and the demo counter);
    arrays are not needed by any handler. *)
Inductive jsval :=
| JNull
| JBool (b : bool)
| JNum (n : Z)
| JStr (s : string).

#[warnings="-register-all"] Inductive json :=
| JVal (v : jsval)
| JObj (fields : list (string * json)).

Coercion JVal : jsval >-> json.

Global Instance jsval_eq_dec : EqDecision jsval.
Proof. solve_decision. Defined.

(** Only the test against [null] is needed on JSON values. *)
Definition is_null (j : json) : bool :=
  match j with JVal JNull => true | _ => false end.

(** A thrown [Error]: only its [message] (and the absent [status]) is
    ever read. *)
Record error := Error { message : string }.

Inductive result (A : Type) :=
| Ok (a : A)
| Throw (e : error).
Arguments Ok {A} a.
Arguments Throw {A} e.

(** [o.k] on a parsed JSON value; [JSON.parse] keeps the last duplicate. *)
Definition field (k : string) (o : json) : option json :=
  match o with
  | JObj fields => snd <$> last (filter (λ p, p.1 = k) fields)
  | JVal _ => None
  end.

(** [req.body?.k] *)
Definition opt_field (k : string) (o : option json) : option json :=
  o ≫= field k.

(** JavaScript truthiness of a possibly [undefined] value. *)
Definition truthy (v : option json) : bool :=
  match v with
  | None => false
  | Some (JVal JNull) => false
  | Some (JVal (JBool b)) => b
  | Some (JVal (JNum n)) => negb (n =? 0)
  | Some (JVal (JStr s)) => negb (String.eqb s "")
  | Some (JObj _) => true
  end.

(** [typeof v === 'string'] *)
Definition as_string (v : option json) : option string :=
  match v with
  | Some (JVal (JStr s)) => Some s
  | _ => None
  end.

(** [v || 0] on what [Y.Map.get] returned. *)
Definition or_zero (v : option jsval) : jsval :=
  match v with
  | Some x => if truthy (Some (JVal x)) then x else JNum 0
  | None => JNum 0
  end.

(** [cur + 1] for a truthy-or-zero [cur]: numeric addition, string
    concatenation, [true + 1]. *)
Definition plus_one (cur : jsval) : jsval :=
  match cur with
  | JNum n => JNum (n + 1)
  | JStr s => JStr (s +:+ "1")
  | JBool b => JNum ((if b then 1 else 0) + 1)
  | JNull => JNum 1
  end.

(** An HTTP response: [res.status(s).json(b)]; [res.json(b)] is status 200. *)
Record response := Response { status : Z; body : json }.

(** [Number(x || d)] on an integer [x]. *)
Definition num_or (x d : Z) : Z := if x =? 0 then d else x.

(** *** Binary values

    What [_buf2U8Arr] and [_u8Arr2Buf] tell apart.  A Node [Buffer] is an
    instance of [Uint8Array]; an [ArrayBuffer] is not.  [NotBinary] stands
    for any other value, with its [typeof].  The database helpers hand
    the two conversions binary values only, on which they keep the bytes;
    the helpers are therefore written on [bytes]. *)
Inductive binary :=
| Uint8Array (b : bytes)
| ArrayBuffer (b : bytes)
| Buffer (b : bytes)
| NotBinary (type_of : string).

(** [x instanceof Uint8Array] *)
Definition instanceof_Uint8Array (x : binary) : bool :=
  match x with Uint8Array _ | Buffer _ => true | _ => false end.

(** [x instanceof ArrayBuffer] *)
Definition instanceof_ArrayBuffer (x : binary) : bool :=
  match x with ArrayBuffer _ => true | _ => false end.

(** [Buffer.isBuffer(x)] *)
Definition Buffer_isBuffer (x : binary) : bool :=
  match x with Buffer _ => true | _ => false end.

(** The bytes a binary value holds. *)
Definition contents (x : binary) : bytes :=
  match x with
  | Uint8Array b | ArrayBuffer b | Buffer b => b
  | NotBinary _ => []
  end.

Definition _buf2U8Arr (buf : binary) : result binary :=
  if instanceof_Uint8Array buf then Ok buf
  else if instanceof_ArrayBuffer buf then Ok (Uint8Array (contents buf))
  else if Buffer_isBuffer buf then Ok (Uint8Array (contents buf))
  else Throw (Error ("not a buffer: " +:+ match buf with NotBinary t => t | _ => "object" end)).

Definition _u8Arr2Buf (u8 : binary) : result binary :=
  if Buffer_isBuffer u8 then Ok u8
  else if instanceof_ArrayBuffer u8 then Ok (Buffer (contents u8))
  else if instanceof_Uint8Array u8 then Ok (Buffer (contents u8))
  else Throw (Error ("not a Uint8Array: " +:+ match u8 with NotBinary t => t | _ => "object" end)).

(** ** The document engine (yjs) and the platform codecs

    yjs is not part of the repository: the replica sees it through the
    calls below.  A fresh [Y.Doc] draws a random client id, which only
    shows when the document is written through; the id is therefore an
    argument of [root_set]. *)
Class YEngine := {
  Doc : Type;
  (** [new Y.Doc()] *)
  Y_Doc : Doc;
  (** [Y.applyUpdate(doc, update)]: [None] when the call throws. *)
  applyUpdate : Doc → bytes → option Doc;
  (** [Y.encodeStateAsUpdate(doc)] *)
  encodeStateAsUpdate : Doc → bytes;
  (** [Y.encodeStateAsUpdate(doc, sv)]: [None] when [sv] does not decode. *)
  encodeStateAsUpdateFrom : Doc → bytes → option bytes;
  (** [Y.encodeStateVector(doc)] *)
  encodeStateVector : Doc → bytes;
  (** [doc.getMap('root').get(k)] *)
  root_get : Doc → string → option jsval;
  (** [doc.getMap('root').set(k, v)] on a document whose client id is [cid] *)
  root_set : N → Doc → string → jsval → Doc;
  (** [Buffer.from(s, 'base64')]: never throws on a string. *)
  from_base64 : string → bytes;
  (** [Buffer.from(b).toString('base64')] *)
  to_base64 : bytes → string;
}.

(** The message of whatever yjs throws is never inspected. *)
Definition Y_error : error := Error "yjs".

(** ** The database *)

Definition DOC_ID : string := "demo-1".

Module updates.
Record row := Row {
  doc_id : string;
  seq : Z;
  update_data : bytes;
  origin : string;
  received_at : Z;
}.
End updates.

Module snapshots.
Record row := Row {
  snapshot_data : bytes;
  last_seq : Z;
  updated_at : Z;
}.
End snapshots.

(** [tbl_updates] lists the rows of [updates]; [sqlite_sequence] is the
    counter behind [AUTOINCREMENT] (the largest [seq] ever handed out, kept
    across deletes); [tbl_snapshots] maps the primary key [doc_id] to its
    row. *)
Record DB := mkDB {
  tbl_updates : list updates.row;
  sqlite_sequence : Z;
  tbl_snapshots : gmap string snapshots.row;
}.

(** The database right after [initDDL] on a fresh file. *)
Definition empty_db : DB := mkDB [] 0 ∅.

(** [ORDER BY seq ASC]: a stable insertion sort on [seq]. *)
Fixpoint insert_by_seq (r : updates.row) (l : list updates.row) : list updates.row :=
  match l with
  | [] => [r]
  | x :: l' =>
      if updates.seq r <? updates.seq x then r :: x :: l'
      else x :: insert_by_seq r l'
  end.

Definition order_by_seq (l : list updates.row) : list updates.row :=
  foldr insert_by_seq [] l.

(** [WHERE doc_id=? AND seq>?] *)
Definition since (doc : string) (s : Z) (r : updates.row) : bool :=
  bool_decide (updates.doc_id r = doc) && (s <? updates.seq r).

(** [WHERE doc_id=? AND seq<=?] *)
Definition upto (doc : string) (s : Z) (r : updates.row) : bool :=
  bool_decide (updates.doc_id r = doc) && (updates.seq r <=? s).

(** [SELECT COALESCE(MAX(seq),0) ... WHERE doc_id=?] *)
Definition max_seq (doc : string) (l : list updates.row) : Z :=
  default 0
    (foldr (λ r m, if bool_decide (updates.doc_id r = doc)
                   then Some (from_option (Z.max (updates.seq r)) (updates.seq r) m)
                   else m) None l).

(** ** Effects: SQL statements and HTTP calls to the peer *)

Inductive sql :=
| InsertUpdate (origin : string) (seq : Z)
| SelectSnapshot
| UpsertSnapshot (last_seq : Z)
| SelectUpdatesSince (seq_exclusive : Z)
| DeleteUpdatesUpto (seq_inclusive : Z)
| DeleteUpdates
| DeleteSnapshots
| SelectMaxSeq.

Inductive event :=
| Sql (s : sql)
| Fetch (method path : string) (body : option json) (answer : result json).

Definition is_sql (e : event) : bool :=
  match e with Sql _ => true | Fetch _ _ _ _ => false end.

(** The peer calls of a trace, oldest first: method and path. *)
Definition calls (tr : list event) : list (string * string) :=
  omap (λ e, match e with Fetch m p _ _ => Some (m, p) | Sql _ => None end) tr.

(** The remote replica behind [PEER_BASE]: a state, and what one [fetch]
    does to it and yields, the parsed JSON body or [Throw] when the call
    rejects.  [/do-sync] reads the body of its [/diff] and [/sv] calls and
    drops that of its [/update] and [/compact] calls. *)
Record Peer := {
  peer_state : Type;
  peer_fetch : string → string → option json → peer_state → peer_state * result json;
}.

Section Replica.
Context `{YEngine}.
Variable peer : Peer.

Record World := mkWorld {
  w_db : DB;
  (** what [Date.now()] returns *)
  w_now : Z;
  w_peer : peer_state peer;
  (** the statements and calls issued so far, oldest first *)
  w_trace : list event;
}.

Definition M (A : Type) : Type := World → World * result A.

Definition ret {A} (a : A) : M A := λ w, (w, Ok a).
Definition throw {A} (e : error) : M A := λ w, (w, Throw e).
Definition bind {A B} (m : M A) (k : A → M B) : M B :=
  λ w, match m w with
       | (w', Ok a) => k a w'
       | (w', Throw e) => (w', Throw e)
       end.
(** [try { m } catch (e) { h(e) }] *)
Definition try_catch {A} (m : M A) (h : error → M A) : M A :=
  λ w, match m w with
       | (w', Ok a) => (w', Ok a)
       | (w', Throw e) => h e w'
       end.

(** The world after statements [tr] left database [db']. *)
Definition after (w : World) (db' : DB) (tr : list event) : World :=
  mkWorld db' (w_now w) (w_peer w) (w_trace w ++ tr).

(** [m] keeps the property [P] of the database, whatever its outcome. *)
Definition preserves (P : DB → Prop) {A} (m : M A) : Prop :=
  ∀ w, P (w_db w) → P (w_db (m w).1).

#[global] Instance M_ret : MRet M := @ret.
#[global] Instance M_bind : MBind M := λ A B k m, bind m k.

(** One SQL statement: [f] is its effect on the tables and its result. *)
Definition exec {A} (s : DB → sql) (f : Z → DB → DB * A) : M A :=
  λ w, let '(db', a) := f (w_now w) (w_db w) in
       (mkWorld db' (w_now w) (w_peer w) (w_trace w ++ [Sql (s (w_db w))]), Ok a).

(** [await fetch(PEER_BASE + path, {method, body})], with [await r.json()]
    where the caller reads the body. *)
Definition fetch (method path : string) (body : option json) : M json :=
  λ w, let '(p', r) := peer_fetch peer method path body (w_peer w) in
       (mkWorld (w_db w) (w_now w) p' (w_trace w ++ [Fetch method path body r]), r).

(** A yjs call that may throw. *)
Definition Y_try {A} (o : option A) : M A :=
  match o with
  | Some a => ret a
  | None => throw Y_error
  end.

(** *** DB helpers *)

Definition dbInsertUpdate (updateBytes : bytes) (origin : string) : M Z :=
  exec (λ db, InsertUpdate origin (sqlite_sequence db + 1))
    (λ now db,
       let lastInsertRowid := sqlite_sequence db + 1 in
       (mkDB (tbl_updates db ++ [updates.Row DOC_ID lastInsertRowid updateBytes origin now])
             lastInsertRowid
             (tbl_snapshots db),
        num_or lastInsertRowid (-1))).

Record snapshot_row := { snapBytes : option bytes; lastSeq : Z }.

Definition dbGetSnapshotRow : M snapshot_row :=
  exec (λ _, SelectSnapshot)
    (λ _ db,
       (db,
        match tbl_snapshots db !! DOC_ID with
        | None => {| snapBytes := None; lastSeq := 0 |}
        | Some row =>
            {| snapBytes := Some (snapshots.snapshot_data row);
               lastSeq := num_or (snapshots.last_seq row) 0 |}
        end)).

Definition dbUpsertSnapshot (snapshotBytes : bytes) (lastSeq : Z) : M unit :=
  exec (λ _, UpsertSnapshot lastSeq)
    (λ now db,
       (mkDB (tbl_updates db) (sqlite_sequence db)
             (<[DOC_ID := snapshots.Row snapshotBytes lastSeq now]> (tbl_snapshots db)),
        tt)).

Definition dbLoadUpdatesSince (seqExclusive : Z) : M (list (Z * bytes)) :=
  exec (λ _, SelectUpdatesSince seqExclusive)
    (λ _ db,
       (db,
        (λ r, (updates.seq r, updates.update_data r)) <$>
          order_by_seq (filter (λ r, since DOC_ID seqExclusive r) (tbl_updates db)))).

Definition dbDeleteUpdatesUpto (seqInclusive : Z) : M Z :=
  exec (λ _, DeleteUpdatesUpto seqInclusive)
    (λ _ db,
       (mkDB (filter (λ r, ¬ upto DOC_ID seqInclusive r) (tbl_updates db))
             (sqlite_sequence db) (tbl_snapshots db),
        num_or (Z.of_nat (length (filter (λ r, upto DOC_ID seqInclusive r) (tbl_updates db)))) 0)).

Definition dbInit : M unit :=
  exec (λ _, DeleteUpdates)
    (λ _ db,
       (mkDB (filter (λ r, updates.doc_id r ≠ DOC_ID) (tbl_updates db))
             (sqlite_sequence db) (tbl_snapshots db), tt)) ;;
  exec (λ _, DeleteSnapshots)
    (λ _ db,
       (mkDB (tbl_updates db) (sqlite_sequence db) (delete DOC_ID (tbl_snapshots db)), tt)).

Definition dbGetMaxSeq : M Z :=
  exec (λ _, SelectMaxSeq)
    (λ _ db, (db, num_or (max_seq DOC_ID (tbl_updates db)) 0)).

(** *** Core logic *)

(** [_b642U8Arr]: [Buffer.from] does not throw on a string, so the
    [catch] arm is never taken. *)
Definition _b642U8Arr (b64 : string) : M bytes := ret (from_base64 b64).

Definition applyIncomingUpdateB64 (b64 : string) (origin : string) : M Z :=
  update_bytes ← _b642U8Arr b64;
  if byteLength update_bytes =? 0 then throw (Error "empty base64 update")
  else
    seq ← dbInsertUpdate update_bytes origin;
    ret seq.

Record compact_result := {
  applied : Z;
  deleted : Z;
  before_last_seq : Z;
  after_last_seq : Z;
  snapshot_bytes : Z;
}.

(** The [for (const { seq, updateData } of pending)] loop: [tmp] is the
    scratch document, [lastApplied] the running watermark. *)
Fixpoint for_pending (pending : list (Z * bytes)) (tmp : Doc) (lastApplied : Z)
  : M (Doc * Z) :=
  match pending with
  | [] => ret (tmp, lastApplied)
  | (seq, updateData) :: pending' =>
      let updateBytes := updateData in
      let lastApplied := seq in
      tmp ← Y_try (applyUpdate tmp updateBytes);
      for_pending pending' tmp lastApplied
  end.

(** [if (snapBytes && snapBytes.byteLength > 0) Y.applyUpdate(doc, snapBytes)]
    on a fresh document. *)
Definition load_snapshot (snapBytes : option bytes) : M Doc :=
  match snapBytes with
  | Some b => if 0 <? byteLength b then Y_try (applyUpdate Y_Doc b) else ret Y_Doc
  | None => ret Y_Doc
  end.

Definition syncCompact : M compact_result :=
  row ← dbGetSnapshotRow;
  tmp ← load_snapshot (snapBytes row);
  pending ← dbLoadUpdatesSince (lastSeq row);
  if Z.of_nat (length pending) =? 0 then
    ret {| applied := 0; deleted := 0;
           before_last_seq := lastSeq row; after_last_seq := lastSeq row;
           snapshot_bytes := from_option byteLength 0 (snapBytes row) |}
  else
    '(tmp, lastApplied) ←
      try_catch (for_pending pending tmp (lastSeq row))
                (λ _, throw (Error "failed to apply pending updates"));
    let newSnapshot := encodeStateAsUpdate tmp in
    dbUpsertSnapshot newSnapshot lastApplied ;;
    deleted ← dbDeleteUpdatesUpto lastApplied;
    ret {| applied := Z.of_nat (length pending); deleted := deleted;
           before_last_seq := lastSeq row; after_last_seq := lastApplied;
           snapshot_bytes := byteLength newSnapshot |}.

Fixpoint for_updates (pending : list (Z * bytes)) (ydoc : Doc) : M Doc :=
  match pending with
  | [] => ret ydoc
  | (_, updateData) :: pending' =>
      ydoc ← Y_try (applyUpdate ydoc updateData);
      for_updates pending' ydoc
  end.

Definition rebuildDurableDoc : M Doc :=
  row ← dbGetSnapshotRow;
  ydoc ← load_snapshot (snapBytes row);
  pending ← dbLoadUpdatesSince (lastSeq row);
  for_updates pending ydoc.

(** *** HTTP endpoints *)

(** [GET /init]; [cid] is the client id of the fresh document. *)
Definition get_init (cid : N) : M response :=
  dbInit;;
  let ydoc := Y_Doc in
  let ydoc := root_set cid ydoc "count" (JNum 1) in
  let ydoc := root_set cid ydoc "message" (JStr "Hello") in
  (* ydoc.getArray('items') names a shared type and writes nothing *)
  let initFullSnapshot := encodeStateAsUpdate ydoc in
  maxSeq ← dbGetMaxSeq;
  dbUpsertSnapshot initFullSnapshot maxSeq;;
  ret (Response 200 (JObj [("ok", JVal (JBool true)); ("seq", JVal (JNum maxSeq));
                           ("doc_id", JVal (JStr DOC_ID))])).

(** [GET /add-count]; [cid] is the client id of the fresh document. *)
Definition get_add_count (cid : N) : M response :=
  row ← dbGetSnapshotRow;
  ydoc ← load_snapshot (snapBytes row);
  let cur := or_zero (root_get ydoc "count") in
  let svBefore := encodeStateVector ydoc in
  let ydoc := root_set cid ydoc "count" (plus_one cur) in
  diff ← Y_try (encodeStateAsUpdateFrom ydoc svBefore);
  dbInsertUpdate diff "local";;
  ret (Response 200 (JObj [("ok", JVal (JBool true))])).

(** [GET /sv] *)
Definition get_sv : M response :=
  ydoc ← rebuildDurableDoc;
  let sv := encodeStateVector ydoc in
  ret (Response 200 (JObj [("sv", JVal (JStr (to_base64 sv)))])).

(** [POST /diff] *)
Definition post_diff (req_body : option json) : M response :=
  let b64 := opt_field "sv" req_body in
  match as_string b64 with
  | None => ret (Response 200 (JObj [("update", JVal JNull)]))
  | Some b64 =>
      let sv := from_base64 b64 in
      ydoc ← rebuildDurableDoc;
      diff ← Y_try (encodeStateAsUpdateFrom ydoc sv);
      ret (Response 200 (JObj [("update", JVal (JStr (to_base64 diff)))]))
  end.

(** [const { k: x } = j]: destructuring [null] throws. *)
Definition destructure (k : string) (j : json) : M (option json) :=
  match j with
  | JVal JNull => throw (Error "TypeError")
  | _ => ret (field k j)
  end.

(** [new Uint8Array(Buffer.from(v, 'base64'))] on a truthy JSON value:
    among the values modelled, anything but a string is a [TypeError]
    (arrays and array-like objects, which [Buffer.from] would take, are not
    among them). *)
Definition Buffer_from (v : option json) : M bytes :=
  match as_string v with
  | Some s => ret (from_base64 s)
  | None => throw (Error "TypeError")
  end.

(** [GET /do-sync] *)
Definition get_do_sync : M response :=
  (* A) local compaction *)
  syncCompact;;
  ydoc ← rebuildDurableDoc;
  let svSelf := encodeStateVector ydoc in
  let svSelfB64 := to_base64 svSelf in
  (* B) pull *)
  r ← fetch "POST" "/diff" (Some (JObj [("sv", JVal (JStr svSelfB64))]));
  diffB64 ← destructure "update" r;
  ydoc ←
    (if truthy diffB64 then
       diffU8 ← Buffer_from diffB64;
       dbInsertUpdate diffU8 "pull";;
       syncCompact;;
       rebuildDurableDoc
     else ret ydoc);
  (* C) push *)
  r2 ← fetch "GET" "/sv" None;
  svPeerB64 ← destructure "sv" r2;
  (if truthy svPeerB64 then
     svPeer ← Buffer_from svPeerB64;
     diffToPeer ← Y_try (encodeStateAsUpdateFrom ydoc svPeer);
     if 0 <? byteLength diffToPeer then
       fetch "POST" "/update" (Some (JObj [("update", JVal (JStr (to_base64 diffToPeer)))]));;
       (* D) remote compaction *)
       fetch "POST" "/compact" None;;
       ret tt
     else ret tt
   else ret tt);;
  ret (Response 200 (JObj [("ok", JVal (JBool true))])).

(** The two halves of [/do-sync] after the local compaction, named for the
    proofs: [get_do_sync] is their sequence ([get_do_sync_phases]). *)
Definition pull_phase (ydoc : Doc) : M Doc :=
  let svSelf := encodeStateVector ydoc in
  let svSelfB64 := to_base64 svSelf in
  r ← fetch "POST" "/diff" (Some (JObj [("sv", JVal (JStr svSelfB64))]));
  diffB64 ← destructure "update" r;
  if truthy diffB64 then
    diffU8 ← Buffer_from diffB64;
    dbInsertUpdate diffU8 "pull";;
    syncCompact;;
    rebuildDurableDoc
  else ret ydoc.

Definition push_phase (ydoc : Doc) : M unit :=
  r2 ← fetch "GET" "/sv" None;
  svPeerB64 ← destructure "sv" r2;
  if truthy svPeerB64 then
    svPeer ← Buffer_from svPeerB64;
    diffToPeer ← Y_try (encodeStateAsUpdateFrom ydoc svPeer);
    if 0 <? byteLength diffToPeer then
      fetch "POST" "/update" (Some (JObj [("update", JVal (JStr (to_base64 diffToPeer)))]));;
      fetch "POST" "/compact" None;;
      ret tt
    else ret tt
  else ret tt.

(** [POST /update] *)
Definition post_update (req_body : option json) : M response :=
  try_catch
    (let b64 := opt_field "update" req_body in
     match as_string b64 with
     | None => ret (Response 400 (JObj [("error", JVal (JStr "missing update (base64)"))]))
     | Some b64 =>
         seq ← applyIncomingUpdateB64 b64 "remote";
         ret (Response 200 (JObj [("ok", JVal (JBool true)); ("seq", JVal (JNum seq))]))
     end)
    (λ e,
       (* e.status is never set: e.status || 500 *)
       ret (Response 500
              (JObj [("error", JVal (JStr (if String.eqb (message e) ""
                                           then "internal_error" else message e)))]))).

Definition compact_result_json (r : compact_result) : json :=
  JObj [("applied", JVal (JNum (applied r))); ("deleted", JVal (JNum (deleted r)));
        ("before_last_seq", JVal (JNum (before_last_seq r)));
        ("after_last_seq", JVal (JNum (after_last_seq r)));
        ("snapshot_bytes", JVal (JNum (snapshot_bytes r)))].

(** [POST /compact] *)
Definition post_compact : M response :=
  try_catch
    (result ← syncCompact;
     ret (Response 200 (JObj [("ok", JVal (JBool true)); ("result", compact_result_json result)])))
    (λ _, ret (Response 500 (JObj [("error", JVal (JStr "internal_error"))]))).

End Replica.

Arguments mkWorld {peer} _ _ _ _.
Arguments w_db {peer} _.
Arguments w_now {peer} _.
Arguments w_peer {peer} _.
Arguments w_trace {peer} _.
Arguments after {peer} _ _ _.
Arguments preserves {peer} _ {A} _.

(** ** The snapshot endpoint *)

(** JSON with arrays, for the body of [/get-snapshot].  An object is the
    list of its properties in insertion order and is read by key. *)
#[warnings="-register-all"] Inductive jtree :=
| TVal (v : jsval)
| TObj (props : list (string * jtree))
| TArr (elems : list jtree).

(** A value as [_crdtToJSON] looks into it: a [Y.Map] with its
    [entries()], a [Y.Array] with its [toArray()], or anything else, a JSON
    value stored in a shared type. *)
#[warnings="-register-all"] Inductive ytype :=
| YJson (j : jtree)
| YMap (entries : list (string * ytype))
| YArray (elems : list ytype).

(** JavaScript truthiness: objects and arrays are truthy. *)
Definition jtruthy (j : jtree) : bool :=
  match j with
  | TVal v => truthy (Some (JVal v))
  | TObj _ | TArr _ => true
  end.

(** [obj[k] = v] *)
Fixpoint obj_set (k : string) (v : jtree) (obj : list (string * jtree))
  : list (string * jtree) :=
  match obj with
  | [] => [(k, v)]
  | (k', v') :: obj' =>
      if decide (k' = k) then (k', v) :: obj' else (k', v') :: obj_set k v obj'
  end.


Fixpoint _crdtToJSON (val : ytype) : jtree :=
  match val with
  | YMap entries =>
      TObj (foldl (λ obj e, obj_set e.1 (_crdtToJSON e.2) obj) [] entries)
  | YArray elems => TArr (_crdtToJSON <$> elems)
  | YJson j => if jtruthy j then j else TVal JNull
  end.

(** [doc.getMap(name)] and [doc.getArray(name)], as [_crdtToJSON] sees
    them. *)
Class YShared `{YEngine} := {
  getMap : Doc → string → ytype;
  getArray : Doc → string → ytype;
}.

Record tree_response := TreeResponse { tree_status : Z; tree_body : jtree }.

Section Snapshot.
Context `{YShared}.
Variable peer : Peer.

(** [GET /get-snapshot] *)
Definition get_snapshot : M peer tree_response :=
  try_catch peer
    (row ← dbGetSnapshotRow peer;
     dbJson ←
       match snapBytes row with
       | Some b =>
           if 0 <? byteLength b then
             tmp ← Y_try peer (applyUpdate Y_Doc b);
             mret (TObj [("root", _crdtToJSON (getMap tmp "root"));
                         ("items", _crdtToJSON (getArray tmp "items"))])
           else mret (TObj [])
       | None => mret (TObj [])
       end;
     mret (TreeResponse 200 (TObj [("ok", TVal (JBool true)); ("snapshot", dbJson)])))
    (λ _, mret (TreeResponse 500 (TObj [("error", TVal (JStr "internal_error"))]))).

(** The body [/get-snapshot] answers for a snapshot that loads. *)
Definition snapshot_body (snap : option bytes) (tmp : Doc) : jtree :=
  TObj [("ok", TVal (JBool true));
        ("snapshot",
         if from_option (λ b, 0 <? byteLength b) false snap
         then TObj [("root", _crdtToJSON (getMap tmp "root"));
                    ("items", _crdtToJSON (getArray tmp "items"))]
         else TObj [])].

End Snapshot.

(** ** The router *)

Inductive request :=
| GET_init (cid : N)
| GET_add_count (cid : N)
| GET_sv
| POST_diff (req_body : option json)
| GET_do_sync
| POST_update (req_body : option json)
| POST_compact.

Definition handle `{YEngine} (peer : Peer) (req : request) : M peer response :=
  match req with
  | GET_init cid => get_init peer cid
  | GET_add_count cid => get_add_count peer cid
  | GET_sv => get_sv peer
  | POST_diff b => post_diff peer b
  | GET_do_sync => get_do_sync peer
  | POST_update b => post_update peer b
  | POST_compact => post_compact peer
  end.

(** [/init] starts a new incarnation of the document. *)
Definition is_init (req : request) : bool :=
  match req with GET_init _ => true | _ => false end.

(** A peer that cannot be reached: every [fetch] rejects. *)
Definition no_peer : Peer :=
  {| peer_state := unit;
     peer_fetch := λ _ _ _ s, (s, Throw (Error "fetch failed")) |}.

(** Modelled from the spec: the peer behind [PEER_BASE] is the Python
    replica [app.py], which is not among the sources; the spec has it expose
    the same surface.  Here it runs this same program over its own database:
    the four paths [/do-sync] calls are served by the handlers above.  A
    handler that throws leaves the call without an answer. *)
Definition node_route (method path : string) (body : option json) : option request :=
  if bool_decide (method = "POST" ∧ path = "/diff") then Some (POST_diff body)
  else if bool_decide (method = "GET" ∧ path = "/sv") then Some GET_sv
  else if bool_decide (method = "POST" ∧ path = "/update") then Some (POST_update body)
  else if bool_decide (method = "POST" ∧ path = "/compact") then Some POST_compact
  else None.

Definition node_peer `{YEngine} : Peer :=
  {| peer_state := DB;
     peer_fetch := λ method path req_body db,
       match node_route method path req_body with
       | Some req =>
           match handle no_peer req (mkWorld (peer:=no_peer) db 0 tt []) with
           | (w', Ok r) => (w_db w', Ok (body r))
           | (w', Throw e) => (w_db w', Throw e)
           end
       | None => (db, Throw (Error "not found"))
       end |}.

(** ** Views of the durable state *)

Section Views.
Context `{YEngine}.

(** What [dbGetSnapshotRow] reads. *)
Definition snapshot_view (db : DB) : snapshot_row :=
  match tbl_snapshots db !! DOC_ID with
  | None => {| snapBytes := None; lastSeq := 0 |}
  | Some row =>
      {| snapBytes := Some (snapshots.snapshot_data row);
         lastSeq := num_or (snapshots.last_seq row) 0 |}
  end.

Definition watermark (db : DB) : Z := lastSeq (snapshot_view db).

Definition snapshot_state (db : DB) : option bytes := snapBytes (snapshot_view db).

(** The document's retained log entries. *)
Definition retained (db : DB) : list updates.row :=
  filter (λ r, updates.doc_id r = DOC_ID) (tbl_updates db).

(** What [dbLoadUpdatesSince (watermark db)] reads. *)
Definition pending_rows (db : DB) : list updates.row :=
  order_by_seq (filter (λ r, since DOC_ID (watermark db) r) (tbl_updates db)).

Definition as_pending (r : updates.row) : Z * bytes :=
  (updates.seq r, updates.update_data r).

Definition pending (db : DB) : list (Z * bytes) := as_pending <$> pending_rows db.

(** The document [load_snapshot] builds. *)
Definition create_from (snap : option bytes) : option Doc :=
  match snap with
  | Some b => if 0 <? byteLength b then applyUpdate Y_Doc b else Some Y_Doc
  | None => Some Y_Doc
  end.

(** Folding payloads into a document, in list order. *)
Fixpoint replay (d : Doc) (l : list (Z * bytes)) : option Doc :=
  match l with
  | [] => Some d
  | (_, u) :: l' => applyUpdate d u ≫= λ d', replay d' l'
  end.

(** The sequence of the last entry, [s0] when there is none. *)
Definition last_applied (s0 : Z) (l : list (Z * bytes)) : Z :=
  from_option fst s0 (last l).

(** The document [rebuildDurableDoc] returns. *)
Definition durable_doc (db : DB) : option Doc :=
  create_from (snapshot_state db) ≫= λ d, replay d (pending db).

(** The database after [dbInsertUpdate] at time [now]. *)
Definition appended (now : Z) (u : bytes) (origin : string) (db : DB) : DB :=
  mkDB (tbl_updates db ++
          [updates.Row DOC_ID (sqlite_sequence db + 1) u origin now])
       (sqlite_sequence db + 1) (tbl_snapshots db).

(** The spec's reconstruction: the snapshot state merged with the payloads
    of all retained log entries, in ascending sequence order. *)
Definition reconstructed (db : DB) : option Doc :=
  create_from (snapshot_state db) ≫= λ d,
  replay d (as_pending <$> order_by_seq (retained db)).

(** The statements [rebuildDurableDoc] issues. *)
Definition rebuild_trace (db : DB) : list event :=
  Sql SelectSnapshot ::
  match create_from (snapshot_state db) with
  | Some _ => [Sql (SelectUpdatesSince (watermark db))]
  | None => []
  end.

(** The database a successful fold into [tmp] leaves at time [now]. *)
Definition compacted (now : Z) (db : DB) (tmp : Doc) : DB :=
  let lastApplied := last_applied (watermark db) (pending db) in
  mkDB (filter (λ r, ¬ upto DOC_ID lastApplied r) (tbl_updates db))
       (sqlite_sequence db)
       (<[DOC_ID := snapshots.Row (encodeStateAsUpdate tmp) lastApplied now]>
          (tbl_snapshots db)).

(** The outcome of [syncCompact] as a function of the database. *)
Definition compact (now : Z) (db : DB) : DB * result compact_result :=
  match create_from (snapshot_state db) with
  | None => (db, Throw Y_error)
  | Some tmp =>
      if Z.of_nat (length (pending db)) =? 0 then
        (db, Ok {| applied := 0; deleted := 0;
                   before_last_seq := watermark db; after_last_seq := watermark db;
                   snapshot_bytes := from_option byteLength 0 (snapshot_state db) |})
      else
        match replay tmp (pending db) with
        | None => (db, Throw (Error "failed to apply pending updates"))
        | Some tmp' =>
            let lastApplied := last_applied (watermark db) (pending db) in
            (compacted now db tmp',
             Ok {| applied := Z.of_nat (length (pending db));
                   deleted := num_or (Z.of_nat (length (filter (λ r, upto DOC_ID lastApplied r)
                                                           (tbl_updates db)))) 0;
                   before_last_seq := watermark db; after_last_seq := lastApplied;
                   snapshot_bytes := byteLength (encodeStateAsUpdate tmp') |})
        end
  end.

(** The statements [syncCompact] issues. *)
Definition compact_trace (db : DB) : list event :=
  Sql SelectSnapshot ::
  match create_from (snapshot_state db) with
  | None => []
  | Some tmp =>
      Sql (SelectUpdatesSince (watermark db)) ::
      if Z.of_nat (length (pending db)) =? 0 then []
      else
        match replay tmp (pending db) with
        | None => []
        | Some _ =>
            let lastApplied := last_applied (watermark db) (pending db) in
            [Sql (UpsertSnapshot lastApplied); Sql (DeleteUpdatesUpto lastApplied)]
        end
  end.

(** [P] survives an append to the log and a compaction. *)
Definition stable (P : DB → Prop) : Prop :=
  (∀ now u o db, P db → P (appended now u o db)) ∧
  (∀ now db, P db → P (compact now db).1).

(** The increment [/add-count] computes from snapshot bytes alone. *)
Definition add_count_delta (cid : N) (snap : option bytes) : option bytes :=
  create_from snap ≫= λ ydoc,
  encodeStateAsUpdateFrom
    (root_set cid ydoc "count" (plus_one (or_zero (root_get ydoc "count"))))
    (encodeStateVector ydoc).

(** The document [/init] seeds. *)
Definition seed_doc (cid : N) : Doc :=
  root_set cid (root_set cid Y_Doc "count" (JNum 1)) "message" (JStr "Hello").

(** The database after [/init] at time [now]. *)
Definition initialised (now : Z) (cid : N) (db : DB) : DB :=
  let rows := filter (λ r, updates.doc_id r ≠ DOC_ID) (tbl_updates db) in
  mkDB rows (sqlite_sequence db)
       (<[DOC_ID := snapshots.Row (encodeStateAsUpdate (seed_doc cid))
                      (num_or (max_seq DOC_ID rows) 0) now]>
          (delete DOC_ID (tbl_snapshots db))).

End Views.

(** ** Reachable databases *)

(** One request served from database [db], at any time, with the peer in
    any state. *)
Definition db_step `{YEngine} (peer : Peer) (req : request) (db db' : DB) : Prop :=
  ∃ t p tr, db' = w_db (handle peer req (mkWorld db t p tr)).1.

Inductive reachable `{YEngine} (peer : Peer) : DB → Prop :=
| reach_boot : reachable peer empty_db
| reach_step req db db' :
    reachable peer db → db_step peer req db db' → reachable peer db'.

(** The database after serving [req] from [db] at time [t] with the peer in
    state [p]; [run] serves a script of requests from a fresh database file. *)
Definition serve_db `{YEngine} (peer : Peer) (t : Z) (p : peer_state peer)
    (db : DB) (req : request) : DB :=
  w_db (handle peer req (mkWorld db t p [])).1.

Definition run `{YEngine} (peer : Peer) (t : Z) (p : peer_state peer)
    (script : list request) : DB :=
  foldl (serve_db peer t p) empty_db script.

(** Requests served after [db0] without a re-initialisation. *)
Inductive same_incarnation `{YEngine} (peer : Peer) (db0 : DB) : DB → Prop :=
| incarnation_refl : same_incarnation peer db0 db0
| incarnation_step req db db' :
    same_incarnation peer db0 db → is_init req = false →
    db_step peer req db db' → same_incarnation peer db0 db'.

(** Delta [u] went into the log of the current incarnation. *)
Definition delivered `{YEngine} (peer : Peer) (u : bytes) (db : DB) : Prop :=
  ∃ db0 r, reachable peer db0 ∧ r ∈ retained db0 ∧ updates.update_data r = u ∧
           same_incarnation peer db0 db.

Record db_inv (db : DB) : Prop := {
  inv_sequence : 0 ≤ sqlite_sequence db;
  inv_bounded : Forall (λ r, 0 < updates.seq r ≤ sqlite_sequence db) (tbl_updates db);
  inv_sorted : StronglySorted (λ r1 r2, updates.seq r1 < updates.seq r2) (tbl_updates db);
  inv_watermark : 0 ≤ watermark db ≤ sqlite_sequence db;
  inv_above : Forall (λ r, watermark db < updates.seq r) (retained db);
}.

(** ** The engine's contract *)

(** Modelled from the spec: the contract of the document engine (yjs, not
    part of the repository).  Merging is idempotent and commutative on
    logical states, and accepts a payload or not whatever the order; a full
    state loads back into a fresh document as the state it encodes. *)
Class MergeContract `{YEngine} := {
  doc_equiv :: Equiv Doc;
  doc_equivalence :: Equivalence (≡@{Doc});
  applyUpdate_proper d1 d2 u d1' :
    d1 ≡ d2 → applyUpdate d1 u = Some d1' →
    ∃ d2', applyUpdate d2 u = Some d2' ∧ d1' ≡ d2';
  applyUpdate_comm d u v du duv :
    applyUpdate d u = Some du → applyUpdate du v = Some duv →
    ∃ dv dvu, applyUpdate d v = Some dv ∧ applyUpdate dv u = Some dvu ∧ duv ≡ dvu;
  applyUpdate_idem d u du :
    applyUpdate d u = Some du →
    ∃ duu, applyUpdate du u = Some duu ∧ duu ≡ du;
  create_from_encode d :
    ∃ d', applyUpdate Y_Doc (encodeStateAsUpdate d) = Some d' ∧ d' ≡ d;
  encode_zero_length d :
    byteLength (encodeStateAsUpdate d) = 0 → d ≡ Y_Doc;
}.

(** Merging [u] into [d] leaves the logical state of [d] as it is. *)
Definition absorbs `{MergeContract} (d : Doc) (u : bytes) : Prop :=
  ∃ d', applyUpdate d u = Some d' ∧ d' ≡ d.

(** The database is well-formed and the document it rebuilds to, if any,
    has absorbed [u]. *)
Definition absorbed `{MergeContract} (u : bytes) (db : DB) : Prop :=
  db_inv db ∧ ∀ d, durable_doc db = Some d → absorbs d u.

(** Modelled from the spec: the contract of the engine's diff and summary.
    A diff carries exactly what the document knows and the summary does not
    dominate; the summary of a document dominates all the document knows. *)
Class DiffContract `{YEngine} := {
  Item : Type;
  (** the document knows the item *)
  knows : Doc → Item → Prop;
  (** the delta carries the item *)
  holds : bytes → Item → Prop;
  (** the summary dominates the item *)
  dominates : bytes → Item → Prop;
  diff_exact d sv delta i :
    encodeStateAsUpdateFrom d sv = Some delta →
    holds delta i ↔ knows d i ∧ ¬ dominates sv i;
  summary_dominates d i : knows d i → dominates (encodeStateVector d) i;
}.

(** Decoding the base64 of a buffer gives the buffer back. *)
Class CodecContract `{YEngine} := {
  from_to_base64 b : from_base64 (to_base64 b) = b;
}.


(** ** A fake engine

    Modelled from the spec: a deterministic, inspectable engine with the
    same contract, to run the replica on concrete inputs.  A document is the
    list of the writes it has seen, a write is stamped with its client and a
    Lamport clock, the map is last-writer-wins, a summary lists a frontier
    per write, and the codec maps a byte to a character. *)
Module FakeEngine.

Record item := mkItem { client : N; clock : N; key : string; value : jsval }.

Global Instance item_eq_dec : EqDecision item.
Proof. solve_decision. Defined.

(** *** Wire format *)

Fixpoint enc_pos (p : positive) : bytes :=
  match p with
  | xH => [x02]
  | xO p => x00 :: enc_pos p
  | xI p => x01 :: enc_pos p
  end.

Fixpoint dec_pos (l : bytes) : option (positive * bytes) :=
  match l with
  | x02 :: r => Some (xH, r)
  | x00 :: r => prod_map xO id <$> dec_pos r
  | x01 :: r => prod_map xI id <$> dec_pos r
  | _ => None
  end.

Definition enc_N (n : N) : bytes :=
  match n with
  | N0 => [x03]
  | Npos p => x04 :: enc_pos p
  end.

Definition dec_N (l : bytes) : option (N * bytes) :=
  match l with
  | x03 :: r => Some (N0, r)
  | x04 :: r => prod_map Npos id <$> dec_pos r
  | _ => None
  end.

Definition enc_Z (z : Z) : bytes :=
  match z with
  | Z0 => [x03]
  | Zpos p => x04 :: enc_pos p
  | Zneg p => x05 :: enc_pos p
  end.

Definition dec_Z (l : bytes) : option (Z * bytes) :=
  match l with
  | x03 :: r => Some (Z0, r)
  | x04 :: r => prod_map Zpos id <$> dec_pos r
  | x05 :: r => prod_map Zneg id <$> dec_pos r
  | _ => None
  end.

Fixpoint enc_raw (l : bytes) : bytes :=
  match l with
  | [] => [x00]
  | b :: l => x01 :: b :: enc_raw l
  end.

Fixpoint dec_raw (l : bytes) : option (bytes * bytes) :=
  match l with
  | x00 :: r => Some ([], r)
  | x01 :: b :: r => prod_map (cons b) id <$> dec_raw r
  | _ => None
  end.

Definition enc_str (s : string) : bytes := enc_raw (String.list_byte_of_string s).

Definition dec_str (l : bytes) : option (string * bytes) :=
  prod_map String.string_of_list_byte id <$> dec_raw l.

Definition enc_val (v : jsval) : bytes :=
  match v with
  | JNull => [x00]
  | JBool b => [x01; if b then x01 else x00]
  | JNum n => x02 :: enc_Z n
  | JStr s => x03 :: enc_str s
  end.

Definition dec_val (l : bytes) : option (jsval * bytes) :=
  match l with
  | x00 :: r => Some (JNull, r)
  | x01 :: x00 :: r => Some (JBool false, r)
  | x01 :: x01 :: r => Some (JBool true, r)
  | x02 :: r => prod_map JNum id <$> dec_Z r
  | x03 :: r => prod_map JStr id <$> dec_str r
  | _ => None
  end.

Definition enc_item (i : item) : bytes :=
  enc_N (client i) ++ enc_N (clock i) ++ enc_str (key i) ++ enc_val (value i).

Definition dec_item (l : bytes) : option (item * bytes) :=
  '(c, l) ← dec_N l;
  '(k, l) ← dec_N l;
  '(s, l) ← dec_str l;
  '(v, l) ← dec_val l;
  Some (mkItem c k s v, l).

Fixpoint enc_items (l : list item) : bytes :=
  match l with
  | [] => [x00]
  | i :: l => x01 :: enc_item i ++ enc_items l
  end.

Fixpoint dec_items (fuel : nat) (l : bytes) : option (list item * bytes) :=
  match fuel with
  | O => None
  | S fuel =>
      match l with
      | x00 :: r => Some ([], r)
      | x01 :: r =>
          '(i, r) ← dec_item r;
          '(tl, r) ← dec_items fuel r;
          Some (i :: tl, r)
      | _ => None
      end
  end.

(** An update: the items, and nothing after them. *)
Definition readUpdate (u : bytes) : option (list item) :=
  match dec_items (length u) u with
  | Some (items, []) => Some items
  | _ => None
  end.

Fixpoint enc_sv (l : list (N * N)) : bytes :=
  match l with
  | [] => [x00]
  | (c, n) :: l => x01 :: enc_N c ++ enc_N n ++ enc_sv l
  end.

Fixpoint dec_sv (fuel : nat) (l : bytes) : option (list (N * N) * bytes) :=
  match fuel with
  | O => None
  | S fuel =>
      match l with
      | x00 :: r => Some ([], r)
      | x01 :: r =>
          '(c, r) ← dec_N r;
          '(n, r) ← dec_N r;
          '(sv, r) ← dec_sv fuel r;
          Some ((c, n) :: sv, r)
      | _ => None
      end
  end.

Definition readStateVector (sv : bytes) : option (list (N * N)) :=
  match dec_sv (length sv) sv with
  | Some (l, []) => Some l
  | _ => None
  end.

(** *** Documents *)

(** The frontier [sv] is past item [i]. *)
Definition covers (sv : list (N * N)) (i : item) : bool :=
  existsb (λ e, (e.1 =? client i)%N && (clock i <? e.2)%N) sv.

Definition frontier (d : list item) : list (N * N) :=
  (λ i, (client i, (clock i + 1)%N)) <$> d.

Definition next_clock (d : list item) : N :=
  foldr (λ i m, N.max (clock i + 1) m) 0%N d.

(** [i] wins over [j]: later clock, then higher client. *)
Definition newer (i j : item) : bool :=
  (clock j <? clock i)%N || ((clock i =? clock j)%N && (client j <? client i)%N).

Definition winner (k : string) (d : list item) : option item :=
  foldr (λ i best,
           if bool_decide (key i = k) then
             match best with
             | Some j => if newer i j then Some i else Some j
             | None => Some i
             end
           else best) None d.

(** Logical equality: the same writes. *)
Definition same_items (d1 d2 : list item) : Prop := ∀ i, i ∈ d1 ↔ i ∈ d2.

Global Instance engine : YEngine := {|
  Doc := list item;
  Y_Doc := [];
  applyUpdate d u := list_union d <$> readUpdate u;
  encodeStateAsUpdate d := enc_items d;
  encodeStateAsUpdateFrom d sv :=
    (λ f, enc_items (filter (λ i, ¬ covers f i) d)) <$> readStateVector sv;
  encodeStateVector d := enc_sv (frontier d);
  root_get d k := value <$> winner k d;
  root_set cid d k v := d ++ [mkItem cid (next_clock d) k v];
  from_base64 := String.list_byte_of_string;
  to_base64 := String.string_of_list_byte;
|}.

(** The counter the durable snapshot shows, as [/get-snapshot] would. *)
Definition snapshot_count (db : DB) : option jsval :=
  create_from (snapshot_state db) ≫= λ d, root_get d "count".

(** *** Concrete databases *)

(** The peer after [/init]. *)
Definition db_peer : DB := run node_peer 7 empty_db [GET_init 20].

(** This replica after [/init]. *)
Definition db_init : DB := run node_peer 5 db_peer [GET_init 10].

(** This replica after [/init] and [/add-count]: snapshot at watermark 0,
    one pending entry. *)
Definition db_seeded : DB := run node_peer 5 db_peer [GET_init 10; GET_add_count 11].

Definition w_seeded : World node_peer := mkWorld (peer:=node_peer) db_seeded 5 db_peer [].

(** ... and after a payload the engine cannot read came in through
    [/update]. *)
Definition db_poisoned : DB :=
  run node_peer 5 db_peer
    [GET_init 10; GET_add_count 11;
     POST_update (Some (JObj [("update", JVal (JStr "x"))]))].

Definition w_poisoned : World node_peer :=
  mkWorld (peer:=node_peer) db_poisoned 5 db_peer [].

(** ... and after two [/add-count] in a row, then a compaction. *)
Definition db_twice : DB :=
  run node_peer 5 db_peer [GET_init 10; GET_add_count 11; GET_add_count 12; POST_compact].


(** The shared types of a fake document: the root map lists, for each key
    written, the value of its winning write; nothing else is ever written. *)
Global Instance shared : YShared := {|
  getMap d name :=
    if bool_decide (name = "root")
    then YMap ((λ k, (k, YJson (TVal (default JNull (value <$> winner k d)))))
                 <$> remove_dups (key <$> d))
    else YMap [];
  getArray d name := YArray [];
|}.

End FakeEngine.


Ltac monad_unfold :=
  unfold mbind, mret, M_bind, M_ret, bind, ret, throw, try_catch, exec, Y_try in *.

(** * Proofs *)

(** ** Sorting by sequence *)

Lemma insert_by_seq_perm r l : insert_by_seq r l ≡ₚ r :: l.
Proof.
  induction l as [|x l IH]; simpl; [done|].
  case_match; [done|]. rewrite IH. apply Permutation_swap.
Qed.

Lemma order_by_seq_perm l : order_by_seq l ≡ₚ l.
Proof.
  induction l as [|x l IH]; simpl; [done|].
  by rewrite insert_by_seq_perm, IH.
Qed.

Lemma insert_by_seq_sorted r l :
  StronglySorted (λ a b, updates.seq a ≤ updates.seq b) l →
  StronglySorted (λ a b, updates.seq a ≤ updates.seq b) (insert_by_seq r l).
Proof.
  induction 1 as [|x l Hl IH Hx]; simpl.
  - repeat constructor.
  - destruct (Z.ltb_spec (updates.seq r) (updates.seq x)).
    + constructor; [by constructor|].
      constructor; [lia|]. eapply Forall_impl; [exact Hx|]. simpl. intros; lia.
    + constructor; [done|].
      rewrite insert_by_seq_perm. constructor; [lia|done].
Qed.

Lemma order_by_seq_sorted l :
  StronglySorted (λ a b, updates.seq a ≤ updates.seq b) (order_by_seq l).
Proof.
  induction l; simpl; [constructor|]. by apply insert_by_seq_sorted.
Qed.

(** Rows stored in increasing [seq] come back as they are. *)
Lemma order_by_seq_id l :
  StronglySorted (λ a b, updates.seq a < updates.seq b) l → order_by_seq l = l.
Proof.
  induction 1 as [|x l Hl IH Hx]; simpl; [done|].
  rewrite IH. destruct l as [|y l]; simpl; [done|].
  apply Forall_cons in Hx as [Hxy _].
  destruct (Z.ltb_spec (updates.seq x) (updates.seq y)); [done|lia].
Qed.

Lemma sorted_filter (P : updates.row → Prop) `{!∀ x, Decision (P x)} l :
  StronglySorted (λ a b, updates.seq a < updates.seq b) l →
  StronglySorted (λ a b, updates.seq a < updates.seq b) (filter P l).
Proof.
  induction 1 as [|x l Hl IH Hx]; [constructor|].
  rewrite filter_cons. case_decide; [|done].
  constructor; [done|].
  apply Forall_forall. intros y [_ Hy]%list_elem_of_filter.
  by eapply Forall_forall in Hx.
Qed.

(** The last row in [ORDER BY seq ASC] carries the highest sequence. *)
Lemma order_by_seq_last l r x :
  last (order_by_seq l) = Some r → x ∈ l → updates.seq x ≤ updates.seq r.
Proof.
  intros Hlast Hx. apply last_Some in Hlast as [l' Hl'].
  pose proof (order_by_seq_sorted l) as Hs. rewrite Hl' in Hs.
  rewrite <-order_by_seq_perm, Hl' in Hx.
  apply elem_of_app in Hx as [Hx| ->%list_elem_of_singleton]; [|lia].
  apply StronglySorted_app in Hs as (Hs & _ & _). apply Hs; [done|]. by left.
Qed.

(** ** What the helpers compute *)


Section Code.
Context `{YEngine} (peer : Peer).
Implicit Types (w : World peer) (db : DB).

Lemma after_nil w : after w (w_db w) [] = w.
Proof. destruct w; unfold after; simpl. by rewrite app_nil_r. Qed.

Lemma after_after w db1 tr1 db2 tr2 :
  after (after w db1 tr1) db2 tr2 = after w db2 (tr1 ++ tr2).
Proof. unfold after; simpl. by rewrite app_assoc. Qed.

Lemma dbGetSnapshotRow_spec w :
  dbGetSnapshotRow peer w = (after w (w_db w) [Sql SelectSnapshot], Ok (snapshot_view (w_db w))).
Proof. reflexivity. Qed.

Lemma dbLoadUpdatesSince_spec w :
  dbLoadUpdatesSince peer (watermark (w_db w)) w
  = (after w (w_db w) [Sql (SelectUpdatesSince (watermark (w_db w)))], Ok (pending (w_db w))).
Proof. reflexivity. Qed.

Lemma load_snapshot_spec snap w :
  load_snapshot peer snap w
  = (w, match create_from snap with Some d => Ok d | None => Throw Y_error end).
Proof.
  unfold load_snapshot, create_from. destruct snap as [b|]; [|done].
  destruct (0 <? byteLength b); [|done]. by destruct (applyUpdate Y_Doc b).
Qed.

Lemma for_pending_spec l tmp s w :
  for_pending peer l tmp s w
  = (w, match replay tmp l with
        | Some d => Ok (d, last_applied s l)
        | None => Throw Y_error
        end).
Proof.
  revert tmp s. induction l as [|[seq u] l IH]; intros tmp s; [done|].
  simpl. monad_unfold. destruct (applyUpdate tmp u) as [d|]; simpl; [|done].
  rewrite IH. destruct (replay d l); [|done].
  unfold last_applied. destruct l as [|p l]; [done|].
  rewrite last_cons_cons. destruct (last (p :: l)) eqn:E; [done|].
  by apply last_None in E.
Qed.

Lemma for_updates_spec l d w :
  for_updates peer l d w
  = (w, match replay d l with Some d' => Ok d' | None => Throw Y_error end).
Proof.
  revert d. induction l as [|[seq u] l IH]; intros d; [done|].
  simpl. monad_unfold. destruct (applyUpdate d u) as [d'|]; simpl; [|done].
  by rewrite IH.
Qed.

Lemma rebuildDurableDoc_spec w :
  rebuildDurableDoc peer w
  = (after w (w_db w) (rebuild_trace (w_db w)),
     match durable_doc (w_db w) with Some d => Ok d | None => Throw Y_error end).
Proof.
  unfold rebuildDurableDoc, durable_doc, rebuild_trace.
  unfold mbind at 1, M_bind, bind. rewrite dbGetSnapshotRow_spec.
  unfold mbind at 1, M_bind, bind. rewrite load_snapshot_spec.
  fold (snapshot_state (w_db w)).
  destruct (create_from (snapshot_state (w_db w))) as [d|]; simpl; [|done].
  unfold mbind at 1, M_bind, bind.
  change (lastSeq (snapshot_view (w_db w))) with
    (watermark (w_db (after w (w_db w) [Sql SelectSnapshot]))).
  rewrite dbLoadUpdatesSince_spec, for_updates_spec, after_after. done.
Qed.

Lemma syncCompact_spec w :
  syncCompact peer w
  = (after w (compact (w_now w) (w_db w)).1 (compact_trace (w_db w)),
     (compact (w_now w) (w_db w)).2).
Proof.
  unfold syncCompact, compact, compact_trace.
  unfold mbind at 1, M_bind, bind. rewrite dbGetSnapshotRow_spec.
  unfold mbind at 1, M_bind, bind. rewrite load_snapshot_spec.
  fold (snapshot_state (w_db w)).
  destruct (create_from (snapshot_state (w_db w))) as [tmp|]; simpl; [|done].
  unfold mbind at 1, M_bind, bind.
  change (lastSeq (snapshot_view (w_db w))) with
    (watermark (w_db (after w (w_db w) [Sql SelectSnapshot]))).
  rewrite dbLoadUpdatesSince_spec, after_after. simpl.
  destruct (Z.of_nat (length (pending (w_db w))) =? 0); [done|].
  monad_unfold. rewrite for_pending_spec.
  destruct (replay tmp (pending (w_db w))) as [tmp'|]; simpl; [|done].
  unfold after, compacted; simpl. by rewrite <-!app_assoc.
Qed.

Lemma dbInsertUpdate_spec u o w :
  dbInsertUpdate peer u o w
  = (after w (appended (w_now w) u o (w_db w))
       [Sql (InsertUpdate o (sqlite_sequence (w_db w) + 1))],
     Ok (num_or (sqlite_sequence (w_db w) + 1) (-1))).
Proof. reflexivity. Qed.

(** *** Properties kept by every step of a handler *)

Lemma preserves_ret P {A} (a : A) : preserves P (mret (M:=M peer) a).
Proof. by intros w. Qed.

Lemma preserves_throw P {A} e : preserves P (throw peer (A:=A) e).
Proof. by intros w. Qed.

Lemma preserves_bind P {A B} (m : M peer A) (k : A → M peer B) :
  preserves P m → (∀ a, preserves P (k a)) → preserves P (m ≫= k).
Proof.
  intros Hm Hk w Hw. specialize (Hm w Hw). monad_unfold.
  destruct (m w) as [w1 [a|e]]; simpl in *; [by apply Hk|done].
Qed.

Lemma preserves_try_catch P {A} (m : M peer A) h :
  preserves P m → (∀ e, preserves P (h e)) → preserves P (try_catch peer m h).
Proof.
  intros Hm Hh w Hw. specialize (Hm w Hw). monad_unfold.
  destruct (m w) as [w1 [a|e]]; simpl in *; [done|by apply Hh].
Qed.

Lemma preserves_fetch P method path b : preserves P (fetch peer method path b).
Proof. intros w Hw. unfold fetch. by destruct (peer_fetch _ _ _ _ _). Qed.

Lemma preserves_Y_try P {A} (o : option A) : preserves P (Y_try peer o).
Proof. destruct o; [apply preserves_ret|apply preserves_throw]. Qed.

Lemma preserves_dbGetSnapshotRow P : preserves P (dbGetSnapshotRow peer).
Proof. by intros w. Qed.

Lemma preserves_load_snapshot P snap : preserves P (load_snapshot peer snap).
Proof. intros w Hw. by rewrite load_snapshot_spec. Qed.

Lemma preserves_rebuildDurableDoc P : preserves P (rebuildDurableDoc peer).
Proof. intros w Hw. by rewrite rebuildDurableDoc_spec. Qed.

Lemma preserves_destructure P k j : preserves P (destructure peer k j).
Proof. destruct j as [[]|]; by intros w. Qed.

Lemma preserves_Buffer_from P v : preserves P (Buffer_from peer v).
Proof. unfold Buffer_from. destruct (as_string v); by intros w. Qed.

Lemma preserves_dbInsertUpdate P u o : stable P → preserves P (dbInsertUpdate peer u o).
Proof. intros [Ha _] w Hw. rewrite dbInsertUpdate_spec. by apply Ha. Qed.

Lemma preserves_syncCompact P : stable P → preserves P (syncCompact peer).
Proof. intros [_ Hc] w Hw. rewrite syncCompact_spec. by apply Hc. Qed.

End Code.

Ltac preserves_step :=
  lazymatch goal with
  | |- preserves _ (rebuildDurableDoc _) => apply preserves_rebuildDurableDoc
  | |- preserves _ (syncCompact _) => by apply preserves_syncCompact
  | |- preserves _ (dbInsertUpdate _ _ _) => by apply preserves_dbInsertUpdate
  | |- preserves _ (dbGetSnapshotRow _) => apply preserves_dbGetSnapshotRow
  | |- preserves _ (load_snapshot _ _) => apply preserves_load_snapshot
  | |- preserves _ (fetch _ _ _ _) => apply preserves_fetch
  | |- preserves _ (Y_try _ _) => apply preserves_Y_try
  | |- preserves _ (destructure _ _ _) => apply preserves_destructure
  | |- preserves _ (Buffer_from _ _) => apply preserves_Buffer_from
  | |- preserves _ (try_catch _ _ _) => apply preserves_try_catch; [|intros ?]
  | |- preserves _ (throw _ _) => apply preserves_throw
  | |- preserves _ (mret _) => apply preserves_ret
  | |- preserves _ (ret _ _) => apply preserves_ret
  | |- preserves _ (mbind _ _) => apply preserves_bind; [|intros ?]
  | |- preserves _ (match ?x with _ => _ end) => destruct x
  | |- preserves _ (let _ := _ in _) => cbv zeta
  end.

Section Handlers.
Context `{YEngine} (peer : Peer).

(** Every request but [/init] keeps what appends and compactions keep. *)
Lemma handle_preserves P req :
  stable P → is_init req = false → preserves P (handle peer req).
Proof.
  intros HP Hreq. destruct req; try discriminate; simpl;
    unfold get_add_count, get_sv, post_diff, get_do_sync, post_update, post_compact,
      applyIncomingUpdateB64, _b642U8Arr;
    repeat preserves_step.
Qed.

End Handlers.

(** ** The invariant of reachable databases *)

Lemma num_or_0 x : num_or x 0 = x.
Proof. unfold num_or. destruct (Z.eqb_spec x 0); congruence. Qed.

Lemma max_seq_other l :
  max_seq DOC_ID (filter (λ r, updates.doc_id r ≠ DOC_ID) l) = 0.
Proof.
  unfold max_seq.
  assert (foldr (λ r m, if bool_decide (updates.doc_id r = DOC_ID)
                        then Some (from_option (Z.max (updates.seq r)) (updates.seq r) m)
                        else m) None
            (filter (λ r, updates.doc_id r ≠ DOC_ID) l) = None) as ->; [|done].
  induction l as [|x l IH]; [done|]. rewrite filter_cons.
  case_decide; [|done]. simpl. by rewrite bool_decide_eq_false_2.
Qed.

Lemma since_spec s r :
  since DOC_ID s r ↔ updates.doc_id r = DOC_ID ∧ s < updates.seq r.
Proof.
  unfold since. rewrite andb_True, bool_decide_spec.
  by destruct (Z.ltb_spec s (updates.seq r)); simpl; intuition lia.
Qed.

Lemma upto_spec s r :
  upto DOC_ID s r ↔ updates.doc_id r = DOC_ID ∧ updates.seq r ≤ s.
Proof.
  unfold upto. rewrite andb_True, bool_decide_spec.
  by destruct (Z.leb_spec (updates.seq r) s); simpl; intuition lia.
Qed.

Lemma elem_of_pending_rows db r :
  r ∈ pending_rows db ↔
  r ∈ tbl_updates db ∧ updates.doc_id r = DOC_ID ∧ watermark db < updates.seq r.
Proof.
  unfold pending_rows. rewrite order_by_seq_perm, list_elem_of_filter, since_spec.
  tauto.
Qed.

Lemma elem_of_retained db r :
  r ∈ retained db ↔ r ∈ tbl_updates db ∧ updates.doc_id r = DOC_ID.
Proof. unfold retained. rewrite list_elem_of_filter. tauto. Qed.

(** Where the watermark lands: it stays when nothing is pending, and
    otherwise it is the sequence of a pending row that no pending row
    exceeds. *)
Lemma last_applied_pending db :
  (pending db = [] ∧ last_applied (watermark db) (pending db) = watermark db) ∨
  (pending db ≠ [] ∧
   ∃ r, r ∈ pending_rows db ∧
        last_applied (watermark db) (pending db) = updates.seq r ∧
        ∀ x, x ∈ pending_rows db → updates.seq x ≤ updates.seq r).
Proof.
  unfold last_applied, pending. rewrite fmap_last.
  destruct (last (pending_rows db)) as [r|] eqn:Hlast; simpl.
  - right. split.
    { apply last_Some in Hlast as [l' Hl']. rewrite Hl', fmap_app.
      by destruct (as_pending <$> l'). }
    exists r. split; [by eapply last_Some_elem_of|]. split; [done|].
    intros x Hx. eapply order_by_seq_last; [exact Hlast|].
    unfold pending_rows in Hx. by rewrite order_by_seq_perm in Hx.
  - left. apply last_None in Hlast. by rewrite Hlast.
Qed.

Lemma watermark_compacted `{YEngine} now db tmp :
  watermark (compacted now db tmp) = last_applied (watermark db) (pending db).
Proof.
  unfold watermark at 1, snapshot_view, compacted. simpl.
  by rewrite lookup_insert_eq, num_or_0.
Qed.

Lemma elem_of_retained_compacted `{YEngine} now db tmp r :
  r ∈ retained (compacted now db tmp) ↔
  r ∈ retained db ∧ last_applied (watermark db) (pending db) < updates.seq r.
Proof.
  rewrite !elem_of_retained. unfold compacted; simpl.
  rewrite list_elem_of_filter, upto_spec. intuition lia.
Qed.

Lemma watermark_appended now u o db : watermark (appended now u o db) = watermark db.
Proof. reflexivity. Qed.

Lemma retained_appended now u o db :
  retained (appended now u o db)
  = retained db ++ [updates.Row DOC_ID (sqlite_sequence db + 1) u o now].
Proof. unfold retained, appended; simpl. by rewrite filter_app. Qed.

Lemma db_inv_empty : db_inv empty_db.
Proof.
  split; simpl; try done; try by constructor.
Qed.

Lemma db_inv_appended now u o db : db_inv db → db_inv (appended now u o db).
Proof.
  intros [Hs Hb Hso Hw Ha]. split.
  - simpl. lia.
  - simpl. apply Forall_app. split.
    + eapply Forall_impl; [exact Hb|]. simpl. intros; lia.
    + repeat constructor; simpl; lia.
  - simpl. apply StronglySorted_app_2; [|done|repeat constructor].
    intros x1 x2 Hx1 ->%list_elem_of_singleton. simpl.
    eapply Forall_forall in Hb; [|exact Hx1]. lia.
  - rewrite watermark_appended. simpl. lia.
  - rewrite watermark_appended, retained_appended. apply Forall_app. split; [done|].
    repeat constructor. simpl. lia.
Qed.

Lemma db_inv_compacted `{YEngine} now db tmp : db_inv db → db_inv (compacted now db tmp).
Proof.
  intros [Hs Hb Hso Hw Ha]. split.
  - done.
  - simpl. apply Forall_forall. intros x [_ Hx]%list_elem_of_filter.
    by eapply Forall_forall in Hb.
  - simpl. by apply sorted_filter.
  - rewrite watermark_compacted. simpl.
    destruct (last_applied_pending db) as [[_ ->]|(_ & r & Hr & -> & _)]; [done|].
    apply elem_of_pending_rows in Hr as (Hr & _ & Hlt).
    eapply Forall_forall in Hb; [|exact Hr]. lia.
  - apply Forall_forall. intros x Hx. rewrite watermark_compacted.
    by apply elem_of_retained_compacted in Hx as [_ Hx].
Qed.

Lemma db_inv_compact `{YEngine} now db : db_inv db → db_inv (compact now db).1.
Proof.
  intros Hdb. unfold compact.
  destruct (create_from (snapshot_state db)); [|done].
  destruct (_ =? 0); [done|].
  destruct (replay _ _); [|done]. by apply db_inv_compacted.
Qed.

Lemma db_inv_stable `{YEngine} : stable db_inv.
Proof. split; [apply db_inv_appended|apply db_inv_compact]. Qed.

Lemma watermark_initialised `{YEngine} now cid db : watermark (initialised now cid db) = 0.
Proof.
  unfold watermark, snapshot_view, initialised. simpl.
  by rewrite lookup_insert_eq, max_seq_other.
Qed.

Lemma retained_initialised `{YEngine} now cid db : retained (initialised now cid db) = [].
Proof.
  unfold retained, initialised. simpl.
  induction (tbl_updates db) as [|x l IH]; [done|].
  rewrite (filter_cons (λ r, updates.doc_id r ≠ DOC_ID)).
  case_decide; [|done]. rewrite filter_cons. by case_decide.
Qed.

Lemma db_inv_initialised `{YEngine} now cid db : db_inv db → db_inv (initialised now cid db).
Proof.
  intros [Hs Hb Hso Hw Ha]. split.
  - done.
  - simpl. apply Forall_forall. intros x [_ Hx]%list_elem_of_filter.
    by eapply Forall_forall in Hb.
  - simpl. by apply sorted_filter.
  - rewrite watermark_initialised. simpl. lia.
  - rewrite retained_initialised. constructor.
Qed.

Lemma get_init_spec `{YEngine} peer cid (w : World peer) :
  get_init peer cid w
  = (after w (initialised (w_now w) cid (w_db w))
       [Sql DeleteUpdates; Sql DeleteSnapshots; Sql SelectMaxSeq; Sql (UpsertSnapshot 0)],
     Ok (Response 200 (JObj [("ok", JVal (JBool true)); ("seq", JVal (JNum 0));
                             ("doc_id", JVal (JStr DOC_ID))]))).
Proof.
  unfold get_init, dbInit, dbGetMaxSeq, dbUpsertSnapshot. monad_unfold. simpl.
  unfold after, initialised, seed_doc. simpl.
  rewrite !max_seq_other. simpl. by rewrite <-!app_assoc.
Qed.

Lemma db_step_inv `{YEngine} peer req db db' : db_step peer req db db' → db_inv db → db_inv db'.
Proof.
  intros (t & p & tr & ->) Hdb. destruct (is_init req) eqn:Hreq.
  - destruct req; try discriminate. unfold handle. rewrite get_init_spec.
    by apply db_inv_initialised.
  - by apply (handle_preserves peer db_inv req db_inv_stable Hreq).
Qed.

Lemma reachable_inv `{YEngine} peer db : reachable peer db → db_inv db.
Proof.
  induction 1 as [|req db db' _ IH Hstep]; [apply db_inv_empty|].
  by eapply db_step_inv.
Qed.

Lemma reachable_run `{YEngine} peer t p script : reachable peer (run peer t p script).
Proof.
  unfold run. induction script as [|req script IH] using rev_ind; [constructor|].
  rewrite foldl_app. simpl. eapply reach_step; [exact IH|]. by exists t, p, [].
Qed.

(** ** Compaction *)

Section Compaction.
Context `{YEngine} (peer : Peer).
Implicit Types (w : World peer) (db : DB).

Lemma replay_app d l1 l2 :
  replay d (l1 ++ l2) = replay d l1 ≫= λ d', replay d' l2.
Proof.
  revert d. induction l1 as [|[s u] l1 IH]; intros d; simpl; [done|].
  destruct (applyUpdate d u); simpl; [apply IH|done].
Qed.

(** C3. If a fold step of the compaction is rejected by the engine, after the
    entries before it were folded, then [syncCompact] throws "failed to apply
    pending updates", [POST /compact] answers 500, and the database (snapshot
    row and update log) is the one before the attempt: no pending entry is
    consumed. *)
Theorem compaction_all_or_nothing w tmp l1 s u l2 d :
  create_from (snapshot_state (w_db w)) = Some tmp →
  pending (w_db w) = l1 ++ (s, u) :: l2 →
  replay tmp l1 = Some d →
  applyUpdate d u = None →
  (syncCompact peer w).2 = Throw (Error "failed to apply pending updates") ∧
  w_db (syncCompact peer w).1 = w_db w ∧
  (post_compact peer w).2
    = Ok (Response 500 (JObj [("error", JVal (JStr "internal_error"))])) ∧
  w_db (post_compact peer w).1 = w_db w.
Proof.
  intros Hsnap Hpend Hl1 Hu.
  assert (compact (w_now w) (w_db w)
          = (w_db w, Throw (Error "failed to apply pending updates"))) as Hc.
  { unfold compact. rewrite Hsnap, Hpend, replay_app, Hl1. simpl. rewrite Hu. simpl.
    rewrite length_app. simpl.
    destruct (Z.eqb_spec (Z.of_nat (length l1 + S (length l2))) 0); [lia|done]. }
  unfold post_compact. monad_unfold. rewrite syncCompact_spec, Hc. done.
Qed.

(** C4. A successful compaction never lowers the watermark.  When entries
    are pending, the new watermark is the sequence of a folded entry that no
    folded entry exceeds (and is the reported [after_last_seq]), and the log
    keeps exactly the entries of the document above it: every entry at or
    below the new watermark is deleted. *)
Theorem compaction_watermark w w' res :
  syncCompact peer w = (w', Ok res) →
  watermark (w_db w) ≤ watermark (w_db w') ∧
  (pending (w_db w) ≠ [] →
   watermark (w_db w') = after_last_seq res ∧
   (∃ u, (watermark (w_db w'), u) ∈ pending (w_db w)) ∧
   (∀ s u, (s, u) ∈ pending (w_db w) → s ≤ watermark (w_db w')) ∧
   (∀ r, r ∈ retained (w_db w') ↔
         r ∈ retained (w_db w) ∧ watermark (w_db w') < updates.seq r)).
Proof.
  rewrite syncCompact_spec. unfold compact.
  destruct (create_from (snapshot_state (w_db w))) as [tmp|]; [|done].
  destruct (Z.eqb_spec (Z.of_nat (length (pending (w_db w)))) 0) as [Hlen|Hlen].
  { intros [= <- <-]. simpl. split; [done|]. intros Hne.
    by destruct (pending (w_db w)). }
  destruct (replay tmp (pending (w_db w))) as [tmp'|]; [|done].
  intros [= <- <-]. simpl. rewrite watermark_compacted.
  destruct (last_applied_pending (w_db w)) as [[Hnil _]|(_ & r & Hr & -> & Hmax)].
  { by rewrite Hnil in Hlen. }
  pose proof Hr as (_ & _ & Hlt)%elem_of_pending_rows.
  split; [lia|]. intros _. split; [done|]. split; [|split].
  - exists (updates.update_data r). unfold pending.
    apply list_elem_of_fmap. by exists r.
  - intros s u (x & [= -> ->] & Hx)%list_elem_of_fmap. by apply Hmax.
  - intros x. rewrite elem_of_retained_compacted.
    destruct (last_applied_pending (w_db w)) as [[Hnil _]|(_ & r' & Hr' & -> & Hmax')].
    { by rewrite Hnil in Hlen. }
    pose proof (Hmax r' Hr'). pose proof (Hmax' r Hr).
    by replace (updates.seq r') with (updates.seq r) by lia.
Qed.

End Compaction.

(** C5. Whatever request is served from a reachable database (init, update
    append, add-count, compaction, sync, and the read-only ones), every
    log entry of the document that is retained afterwards has a sequence
    strictly greater than the snapshot's watermark. *)
Theorem retained_above_watermark `{YEngine} peer req db db' r :
  reachable peer db → db_step peer req db db' →
  r ∈ retained db' → watermark db' < updates.seq r.
Proof.
  intros Hdb Hstep Hr.
  assert (db_inv db') as [_ _ _ _ Ha].
  { eapply db_step_inv; [done|]. by eapply reachable_inv. }
  by eapply Forall_forall in Ha.
Qed.

(** ** Compaction is transparent *)

Lemma filter_since_retained db :
  db_inv db →
  filter (λ r, since DOC_ID (watermark db) r) (tbl_updates db) = retained db.
Proof.
  intros [_ _ _ _ Ha]. unfold retained in *.
  induction (tbl_updates db) as [|x l IH]; [done|].
  rewrite !filter_cons in *. case_decide as Hx.
  - apply Forall_cons in Ha as [Hlt Ha]. rewrite decide_True; [by rewrite IH|].
    by apply since_spec.
  - rewrite decide_False; [by apply IH|]. rewrite since_spec. tauto.
Qed.

Lemma reconstructed_durable_doc `{YEngine} db :
  db_inv db → reconstructed db = durable_doc db.
Proof.
  intros Hdb. unfold reconstructed, durable_doc, pending, pending_rows.
  by rewrite filter_since_retained.
Qed.

Lemma pending_compacted `{YEngine} now db tmp : pending (compacted now db tmp) = [].
Proof.
  unfold pending. destruct (pending_rows (compacted now db tmp)) as [|x l] eqn:Hx; [done|].
  assert (x ∈ pending_rows (compacted now db tmp)) as Hin by (rewrite Hx; left).
  apply elem_of_pending_rows in Hin as (Hin & Hdoc & Hlt).
  rewrite watermark_compacted in Hlt.
  assert (x ∈ retained (compacted now db tmp)) as Hret by by apply elem_of_retained.
  apply elem_of_retained_compacted in Hret as [[Hdb _]%elem_of_retained _].
  destruct (last_applied_pending db) as [[Hnil Heq]|(_ & r & Hr & Heq & Hmax)];
    rewrite Heq in Hlt.
  - assert (x ∈ pending_rows db) as Hp by by apply elem_of_pending_rows.
    unfold pending in Hnil. apply fmap_nil_inv in Hnil. rewrite Hnil in Hp.
    by apply not_elem_of_nil in Hp.
  - pose proof Hr as (_ & _ & Hr')%elem_of_pending_rows.
    assert (x ∈ pending_rows db) as Hp by (apply elem_of_pending_rows; split_and!; [done..|lia]).
    apply Hmax in Hp. lia.
Qed.

Lemma durable_doc_compacted `{MergeContract} now db tmp :
  ∃ d, durable_doc (compacted now db tmp) = Some d ∧ d ≡ tmp.
Proof.
  unfold durable_doc. rewrite pending_compacted.
  unfold snapshot_state, snapshot_view, compacted; simpl. rewrite lookup_insert_eq. simpl.
  destruct (Z.ltb_spec 0 (byteLength (encodeStateAsUpdate tmp))) as [Hlen|Hlen].
  - destruct (create_from_encode tmp) as (d & -> & Hd). by exists d.
  - exists Y_Doc. split; [done|]. symmetry. apply encode_zero_length.
    unfold byteLength in *. lia.
Qed.

(** C1. From a reachable database, run [syncCompact].  If the document
    reconstructs before the run (the snapshot state merged with the payloads
    of all retained log entries in ascending sequence order), then it
    reconstructs after the run, to the same logical state, under the
    engine's merge contract; and in both databases this reconstruction is
    the document [rebuildDurableDoc] returns. *)
Theorem compaction_transparent `{MergeContract} peer (w : World peer) d :
  reachable peer (w_db w) →
  reconstructed (w_db w) = Some d →
  ∃ d', reconstructed (w_db (syncCompact peer w).1) = Some d' ∧ d' ≡ d ∧
        (rebuildDurableDoc peer w).2 = Ok d ∧
        (rebuildDurableDoc peer (syncCompact peer w).1).2 = Ok d'.
Proof.
  intros Hreach%reachable_inv Hd.
  assert (db_inv (w_db (syncCompact peer w).1)) as Hinv'.
  { by apply preserves_syncCompact; [apply db_inv_stable|]. }
  rewrite !rebuildDurableDoc_spec. simpl.
  rewrite (reconstructed_durable_doc _ Hinv').
  rewrite reconstructed_durable_doc in Hd by done. rewrite Hd.
  rewrite syncCompact_spec. simpl. unfold compact.
  pose proof Hd as Hd'. unfold durable_doc in Hd'.
  destruct (create_from (snapshot_state (w_db w))) as [tmp|]; [simpl in Hd'|done].
  destruct (_ =? 0); [simpl; exists d; by rewrite Hd|].
  rewrite Hd'. simpl.
  destruct (durable_doc_compacted (w_now w) (w_db w) d) as (d' & Hd'' & Heq).
  exists d'. by rewrite Hd''.
Qed.

(** ** Endpoints *)

Section Endpoints.
Context `{YEngine} (peer : Peer).
Implicit Types (w : World peer) (db : DB).


(** C8, as amended.  [GET /init] first deletes every log entry of the
    document and its snapshot row, then creates the snapshot row with the
    full state of the seeded document ([count] 1, [message] "Hello") and
    watermark 0, and answers [seq] 0. *)
Theorem get_init_seeds cid w :
  get_init peer cid w
  = (after w (initialised (w_now w) cid (w_db w))
       [Sql DeleteUpdates; Sql DeleteSnapshots; Sql SelectMaxSeq; Sql (UpsertSnapshot 0)],
     Ok (Response 200 (JObj [("ok", JVal (JBool true)); ("seq", JVal (JNum 0));
                             ("doc_id", JVal (JStr DOC_ID))]))) ∧
  retained (initialised (w_now w) cid (w_db w)) = [] ∧
  tbl_snapshots (initialised (w_now w) cid (w_db w)) !! DOC_ID
  = Some (snapshots.Row (encodeStateAsUpdate (seed_doc cid)) 0 (w_now w)) ∧
  watermark (initialised (w_now w) cid (w_db w)) = 0.
Proof.
  split; [apply get_init_spec|]. split; [apply retained_initialised|].
  split; [|apply watermark_initialised].
  unfold initialised. simpl. by rewrite lookup_insert_eq, max_seq_other.
Qed.

Lemma get_add_count_spec cid w :
  get_add_count peer cid w
  = match add_count_delta cid (snapshot_state (w_db w)) with
    | Some delta =>
        (after w (appended (w_now w) delta "local" (w_db w))
           [Sql SelectSnapshot; Sql (InsertUpdate "local" (sqlite_sequence (w_db w) + 1))],
         Ok (Response 200 (JObj [("ok", JVal (JBool true))])))
    | None => (after w (w_db w) [Sql SelectSnapshot], Throw Y_error)
    end.
Proof.
  unfold get_add_count, add_count_delta.
  unfold mbind at 1, M_bind, bind. rewrite dbGetSnapshotRow_spec.
  unfold mbind at 1, M_bind, bind. rewrite load_snapshot_spec.
  fold (snapshot_state (w_db w)).
  destruct (create_from (snapshot_state (w_db w))) as [ydoc|]; simpl; [|done].
  monad_unfold. destruct (encodeStateAsUpdateFrom _ _); simpl; [|done].
  unfold after. simpl. by rewrite <-app_assoc.
Qed.

(** C10. [GET /add-count] builds its document from the snapshot bytes
    alone: the delta it appends is [add_count_delta] of the snapshot state.
    Served from the same snapshot row over any other log [log] (with or
    without residual entries above the watermark), it appends the same
    delta; when the engine throws, nothing is appended in either. *)
Theorem add_count_ignores_log cid w log :
  let w2 := mkWorld (mkDB log (sqlite_sequence (w_db w)) (tbl_snapshots (w_db w)))
                    (w_now w) (w_peer w) (w_trace w) in
  match add_count_delta cid (snapshot_state (w_db w)) with
  | Some delta =>
      let row := updates.Row DOC_ID (sqlite_sequence (w_db w) + 1) delta "local" (w_now w) in
      (get_add_count peer cid w).2 = Ok (Response 200 (JObj [("ok", JVal (JBool true))])) ∧
      (get_add_count peer cid w2).2 = Ok (Response 200 (JObj [("ok", JVal (JBool true))])) ∧
      tbl_updates (w_db (get_add_count peer cid w).1) = tbl_updates (w_db w) ++ [row] ∧
      tbl_updates (w_db (get_add_count peer cid w2).1) = log ++ [row]
  | None =>
      (get_add_count peer cid w).2 = Throw Y_error ∧
      (get_add_count peer cid w2).2 = Throw Y_error ∧
      w_db (get_add_count peer cid w).1 = w_db w ∧
      w_db (get_add_count peer cid w2).1 = w_db w2
  end.
Proof.
  intros w2. rewrite !get_add_count_spec.
  change (snapshot_state (w_db w2)) with (snapshot_state (w_db w)).
  by destruct (add_count_delta cid (snapshot_state (w_db w))).
Qed.

End Endpoints.

Lemma post_diff_spec `{YEngine} peer (w : World peer) req_body :
  post_diff peer req_body w
  = match as_string (opt_field "sv" req_body) with
    | None => (w, Ok (Response 200 (JObj [("update", JVal JNull)])))
    | Some b64 =>
        (after w (w_db w) (rebuild_trace (w_db w)),
         match durable_doc (w_db w) ≫= λ d, encodeStateAsUpdateFrom d (from_base64 b64) with
         | Some delta => Ok (Response 200 (JObj [("update", JVal (JStr (to_base64 delta)))]))
         | None => Throw Y_error
         end)
    end.
Proof.
  unfold post_diff. destruct (as_string _) as [b64|]; [|done].
  unfold mbind at 1, M_bind, bind. rewrite rebuildDurableDoc_spec.
  destruct (durable_doc (w_db w)) as [d|]; simpl; [|done].
  monad_unfold. by destruct (encodeStateAsUpdateFrom _ _).
Qed.

Lemma get_sv_spec `{YEngine} peer (w : World peer) :
  get_sv peer w
  = (after w (w_db w) (rebuild_trace (w_db w)),
     match durable_doc (w_db w) with
     | Some d => Ok (Response 200 (JObj [("sv", JVal (JStr (to_base64 (encodeStateVector d))))]))
     | None => Throw Y_error
     end).
Proof.
  unfold get_sv. unfold mbind at 1, M_bind, bind. rewrite rebuildDurableDoc_spec.
  by destruct (durable_doc (w_db w)).
Qed.

(** C6. [POST /diff] with a string [sv]: when the durable document rebuilds
    to [d] and the engine reads the summary, the answer is the base64 of the
    engine's diff of [d] against the summary, and nothing changes.  By the
    engine's contract that delta carries exactly what [d] knows and the
    summary does not dominate; when the summary dominates all that [d] knows
    the delta carries nothing (the answer is an empty delta, not [null]). *)
Theorem post_diff_contract `{DiffContract} peer (w : World peer) req_body b64 d delta :
  as_string (opt_field "sv" req_body) = Some b64 →
  durable_doc (w_db w) = Some d →
  encodeStateAsUpdateFrom d (from_base64 b64) = Some delta →
  (post_diff peer req_body w).2
  = Ok (Response 200 (JObj [("update", JVal (JStr (to_base64 delta)))])) ∧
  w_db (post_diff peer req_body w).1 = w_db w ∧
  (∀ i, holds delta i ↔ knows d i ∧ ¬ dominates (from_base64 b64) i) ∧
  ((∀ i, knows d i → dominates (from_base64 b64) i) → ∀ i, ¬ holds delta i).
Proof.
  intros Hsv Hd Hdelta. rewrite post_diff_spec, Hsv, Hd. simpl. rewrite Hdelta.
  split; [done|]. split; [done|].
  split; [intros i; by apply diff_exact|].
  intros Hall i Hi. apply (diff_exact _ _ _ _ Hdelta) in Hi as [Hk Hnd]. by apply Hnd, Hall.
Qed.

(** ** Duplicate delivery *)

Section Duplicates.
Context `{MergeContract}.

Lemma absorbs_equiv d1 d2 u : d1 ≡ d2 → absorbs d1 u → absorbs d2 u.
Proof.
  intros Heq (d1' & Hd1 & Hd1').
  destruct (applyUpdate_proper _ _ _ _ Heq Hd1) as (d2' & Hd2 & Hd2').
  exists d2'. split; [done|]. by rewrite <-Hd2', Hd1'.
Qed.

Lemma absorbs_applied d u du : applyUpdate d u = Some du → absorbs du u.
Proof. intros Hu. destruct (applyUpdate_idem _ _ _ Hu) as (duu & ? & ?). by exists duu. Qed.

Lemma absorbs_step d u v dv : absorbs d u → applyUpdate d v = Some dv → absorbs dv u.
Proof.
  intros (du & Hu & Hdu) Hv.
  assert (d ≡ du) as Heq by done.
  destruct (applyUpdate_proper _ _ _ _ Heq Hv) as (duv & Huv & Hduv).
  destruct (applyUpdate_comm _ _ _ _ _ Hu Huv) as (dv' & dvu & Hv' & Hvu & Hcomm).
  rewrite Hv in Hv'. injection Hv' as <-.
  exists dvu. split; [done|]. by rewrite <-Hcomm, <-Hduv.
Qed.

Lemma replay_absorbs d u l d' : absorbs d u → replay d l = Some d' → absorbs d' u.
Proof.
  revert d. induction l as [|[s v] l IH]; intros d Ha; simpl.
  - by intros [= <-].
  - destruct (applyUpdate d v) as [dv|] eqn:Hv; [simpl|done].
    apply IH. by eapply absorbs_step.
Qed.

Lemma replay_elem_of d s u l d' : (s, u) ∈ l → replay d l = Some d' → absorbs d' u.
Proof.
  intros (l1 & l2 & ->)%list_elem_of_split. rewrite replay_app.
  destruct (replay d l1) as [d1|]; [simpl|done].
  destruct (applyUpdate d1 u) as [du|] eqn:Hu; [simpl|done].
  apply replay_absorbs. by eapply absorbs_applied.
Qed.

Lemma pending_rows_inv db :
  db_inv db → pending_rows db = retained db.
Proof.
  intros Hdb. unfold pending_rows. rewrite filter_since_retained by done.
  apply order_by_seq_id. apply sorted_filter. by destruct Hdb.
Qed.

Lemma pending_appended now v o db :
  db_inv db →
  pending (appended now v o db) = pending db ++ [(sqlite_sequence db + 1, v)].
Proof.
  intros Hdb. unfold pending.
  rewrite (pending_rows_inv db), (pending_rows_inv (appended now v o db))
    by auto using db_inv_appended.
  by rewrite retained_appended, fmap_app.
Qed.

Lemma durable_doc_appended now v o db :
  db_inv db →
  durable_doc (appended now v o db) = durable_doc db ≫= λ d, applyUpdate d v.
Proof.
  intros Hdb. unfold durable_doc. rewrite pending_appended by done.
  change (snapshot_state (appended now v o db)) with (snapshot_state db).
  destruct (create_from (snapshot_state db)) as [d0|]; [simpl|done].
  rewrite replay_app. destruct (replay d0 (pending db)) as [d|]; [simpl|done].
  by destruct (applyUpdate d v).
Qed.

Lemma absorbed_stable u : stable (absorbed u).
Proof.
  split.
  - intros now v o db [Hdb Hu]. split; [by apply db_inv_appended|].
    intros d. rewrite durable_doc_appended by done.
    destruct (durable_doc db) as [d0|]; [simpl|done]. intros Hv.
    eapply absorbs_step; [|exact Hv]. by apply Hu.
  - intros now db [Hdb Hu]. split; [by apply db_inv_compact|].
    unfold compact. pose proof Hu as Hu'. unfold durable_doc in Hu'.
    destruct (create_from (snapshot_state db)) as [tmp|]; [simpl in Hu'|done].
    destruct (_ =? 0); [done|].
    destruct (replay tmp (pending db)) as [tmp'|]; [|done]. simpl.
    intros d Hd. destruct (durable_doc_compacted now db tmp') as (d' & Hd' & Heq).
    rewrite Hd in Hd'. injection Hd' as <-.
    eapply absorbs_equiv; [symmetry; exact Heq|]. by apply Hu'.
Qed.

Lemma delivered_absorbed peer u db : delivered peer u db → absorbed u db.
Proof.
  intros (db0 & r & Hreach%reachable_inv & Hr & Hu & Hsame).
  induction Hsame as [|req db db' _ IH Hreq (t & p & tr & ->)].
  - split; [done|]. intros d. unfold durable_doc, pending.
    rewrite pending_rows_inv by done.
    destruct (create_from (snapshot_state db0)) as [d0|]; [simpl|done].
    apply replay_elem_of with (s := updates.seq r).
    apply list_elem_of_fmap. exists r. by rewrite <-Hu.
  - by apply (handle_preserves peer _ req (absorbed_stable u) Hreq).
Qed.

(** C9. A delta [u] that went into the log of the current incarnation of
    the document is delivered again through [POST /update].  If the durable
    document rebuilt before the request, it rebuilds after it to the same
    logical state, given the engine's idempotent and commutative merge;
    what changes is the log, which grows by one record (when [u] is not
    empty; an empty [u] is rejected and nothing changes). *)
Theorem duplicate_delivery peer (w : World peer) req_body b64 u d :
  delivered peer u (w_db w) →
  as_string (opt_field "update" req_body) = Some b64 →
  from_base64 b64 = u →
  (rebuildDurableDoc peer w).2 = Ok d →
  ∃ d', (rebuildDurableDoc peer (post_update peer req_body w).1).2 = Ok d' ∧ d' ≡ d ∧
        tbl_snapshots (w_db (post_update peer req_body w).1) = tbl_snapshots (w_db w) ∧
        (u ≠ [] →
         tbl_updates (w_db (post_update peer req_body w).1)
         = tbl_updates (w_db w) ++
             [updates.Row DOC_ID (sqlite_sequence (w_db w) + 1) u "remote" (w_now w)]).
Proof.
  intros [Hdb Hu]%delivered_absorbed Hb64 <-. rewrite !rebuildDurableDoc_spec. simpl.
  destruct (durable_doc (w_db w)) as [d0|] eqn:Hd0; [|done]. intros [= ->].
  assert (post_update peer req_body w
          = if byteLength (from_base64 b64) =? 0
            then (w, Ok (Response 500 (JObj [("error", JVal (JStr "empty base64 update"))])))
            else (after w (appended (w_now w) (from_base64 b64) "remote" (w_db w))
                    [Sql (InsertUpdate "remote" (sqlite_sequence (w_db w) + 1))],
                  Ok (Response 200
                        (JObj [("ok", JVal (JBool true));
                               ("seq", JVal (JNum (num_or (sqlite_sequence (w_db w) + 1) (-1))))]))))
    as ->.
  { unfold post_update, applyIncomingUpdateB64, _b642U8Arr. rewrite Hb64. monad_unfold.
    by destruct (_ =? 0). }
  destruct (Z.eqb_spec (byteLength (from_base64 b64)) 0) as [Hlen|Hlen].
  - exists d. simpl. rewrite Hd0. split_and!; [done..|].
    intros Hne. unfold byteLength in Hlen. by destruct (from_base64 b64).
  - simpl. rewrite durable_doc_appended, Hd0 by done. simpl.
    destruct (Hu d eq_refl) as (d' & -> & Heq). by exists d'.
Qed.

End Duplicates.

(** ** Synchronisation *)

Section Sync.
Context `{YEngine} (peer : Peer).
Implicit Types (w : World peer) (db : DB).

#[local] Arguments compact_trace : simpl never.
#[local] Arguments rebuild_trace : simpl never.
#[local] Arguments compact : simpl never.
#[local] Arguments appended : simpl never.

Lemma bind_assoc_at {A B C} (m : M peer A) (k : A → M peer B) (k' : B → M peer C) w :
  ((m ≫= k) ≫= k') w = (m ≫= λ a, k a ≫= k') w.
Proof. monad_unfold. by destruct (m w) as [w1 [a|e]]. Qed.

Lemma bind_ext_at {A B} (m : M peer A) (k k' : A → M peer B) w :
  (∀ a w1, k a w1 = k' a w1) → (m ≫= k) w = (m ≫= k') w.
Proof. intros Hk. monad_unfold. by destruct (m w) as [w1 [a|e]]. Qed.

Lemma get_do_sync_phases w :
  get_do_sync peer w
  = (syncCompact peer;;
     ydoc ← rebuildDurableDoc peer;
     ydoc ← pull_phase peer ydoc;
     push_phase peer ydoc;;
     ret peer (Response 200 (JObj [("ok", JVal (JBool true))]))) w.
Proof.
  unfold get_do_sync, pull_phase. cbv zeta.
  apply bind_ext_at. intros _ w1. apply bind_ext_at. intros ydoc w2.
  symmetry. rewrite bind_assoc_at. apply bind_ext_at. intros r w3.
  rewrite bind_assoc_at. apply bind_ext_at. intros diffB64 w4.
  apply bind_ext_at. intros ydoc' w5. unfold push_phase.
  rewrite bind_assoc_at. apply bind_ext_at. intros r2 w6.
  rewrite bind_assoc_at. reflexivity.
Qed.

Lemma compact_trace_sql db : Forall (λ e, is_sql e) (compact_trace db).
Proof.
  unfold compact_trace. destruct (create_from _); [|by repeat constructor].
  destruct (_ =? 0); [by repeat constructor|].
  destruct (replay _ _); by repeat constructor.
Qed.

Lemma rebuild_trace_sql db : Forall (λ e, is_sql e) (rebuild_trace db).
Proof. unfold rebuild_trace. destruct (create_from _); by repeat constructor. Qed.

(** One [fetch]: the peer moves, the database does not, one event is logged. *)
Lemma fetch_spec method path b w :
  fetch peer method path b w
  = (mkWorld (w_db w) (w_now w) (peer_fetch peer method path b (w_peer w)).1
       (w_trace w ++ [Fetch method path b (peer_fetch peer method path b (w_peer w)).2]),
     (peer_fetch peer method path b (w_peer w)).2).
Proof. unfold fetch. by destruct (peer_fetch _ _ _ _ _). Qed.

Lemma destructure_spec k j w :
  destructure peer k j w
  = (w, if is_null j then Throw (Error "TypeError") else Ok (field k j)).
Proof. by destruct j as [[]|]. Qed.

(** A run of the pull phase: the [/diff] call, then statements only.  When
    it returns, either nothing was pulled and nothing changed, or the pulled
    delta was appended, the log compacted and the document rebuilt, in this
    order, and the document returned is the one the database rebuilds to. *)
Lemma pull_phase_run ydoc w w' r :
  let b := Some (JObj [("sv", JVal (JStr (to_base64 (encodeStateVector ydoc))))]) in
  let a := (peer_fetch peer "POST" "/diff" b (w_peer w)).2 in
  pull_phase peer ydoc w = (w', r) →
  ∃ t_sql,
    w_trace w' = w_trace w ++ Fetch "POST" "/diff" b a :: t_sql ∧
    Forall (λ e, is_sql e) t_sql ∧
    w_peer w' = (peer_fetch peer "POST" "/diff" b (w_peer w)).1 ∧
    w_now w' = w_now w ∧
    ∀ d, r = Ok d →
      (d = ydoc ∧ w_db w' = w_db w ∧ t_sql = [] ∧
       ∀ ans, a = Ok ans → truthy (field "update" ans) = false) ∨
      (∃ ans s,
         a = Ok ans ∧ as_string (field "update" ans) = Some s ∧
         let db2 := appended (w_now w) (from_base64 s) "pull" (w_db w) in
         w_db w' = (compact (w_now w) db2).1 ∧
         durable_doc (w_db w') = Some d ∧
         t_sql = Sql (InsertUpdate "pull" (sqlite_sequence (w_db w) + 1))
                   :: compact_trace db2 ++ rebuild_trace (compact (w_now w) db2).1).
Proof.
  intros b a. subst a. unfold pull_phase. cbv zeta. fold b.
  unfold mbind at 1, M_bind, bind. rewrite fetch_spec.
  destruct (peer_fetch peer "POST" "/diff" b (w_peer w)) as [p1 [ans|e]]; simpl.
  2:{ intros [= <- <-]. exists []. simpl. split_and!; done. }
  set (w1 := mkWorld (w_db w) (w_now w) p1 (w_trace w ++ [Fetch "POST" "/diff" b (Ok ans)])).
  assert (∀ e, (w1, Throw e) = (w', r) →
            ∃ t_sql,
              w_trace w' = w_trace w ++ Fetch "POST" "/diff" b (Ok ans) :: t_sql ∧
              Forall (λ e, is_sql e) t_sql ∧ w_peer w' = p1 ∧ w_now w' = w_now w ∧
              ∀ d, r = Ok d →
                (d = ydoc ∧ w_db w' = w_db w ∧ t_sql = [] ∧
                 ∀ ans0, Ok ans = Ok ans0 → truthy (field "update" ans0) = false) ∨
                (∃ ans0 s,
                   Ok ans = Ok ans0 ∧ as_string (field "update" ans0) = Some s ∧
                   let db2 := appended (w_now w) (from_base64 s) "pull" (w_db w) in
                   w_db w' = (compact (w_now w) db2).1 ∧
                   durable_doc (w_db w') = Some d ∧
                   t_sql = Sql (InsertUpdate "pull" (sqlite_sequence (w_db w) + 1))
                             :: compact_trace db2 ++ rebuild_trace (compact (w_now w) db2).1))
    as Hthrow.
  { intros e [= <- <-]. exists []. simpl. split_and!; done. }
  unfold mbind at 1, M_bind, bind.
  rewrite destructure_spec. destruct (is_null ans); [by apply Hthrow|].
  destruct (truthy (field "update" ans)) eqn:Htruthy.
  2:{ intros [= <- <-]. exists []. simpl. split_and!; try done.
      intros d [= <-]. left. split_and!; try done. by intros ? [= <-]. }
  unfold mbind at 1, M_bind, bind. unfold Buffer_from.
  destruct (as_string (field "update" ans)) as [s|] eqn:Hs; simpl; [|by apply Hthrow].
  unfold mbind at 1, M_bind, bind. rewrite dbInsertUpdate_spec. simpl.
  unfold mbind at 1, M_bind, bind. rewrite syncCompact_spec. simpl.
  set (db2 := appended (w_now w) (from_base64 s) "pull" (w_db w)).
  destruct (compact (w_now w) db2) as [db3 [res|e]] eqn:Hcompact; simpl.
  2:{ intros [= <- <-].
      exists (Sql (InsertUpdate "pull" (sqlite_sequence (w_db w) + 1)) :: compact_trace db2).
      unfold after, w1. cbn [w_trace w_peer w_now w_db]. split_and!; try done.
      - by rewrite <-!app_assoc.
      - constructor; [done|apply compact_trace_sql]. }
  rewrite rebuildDurableDoc_spec. simpl. intros [= <- <-].
  exists (Sql (InsertUpdate "pull" (sqlite_sequence (w_db w) + 1))
            :: compact_trace db2 ++ rebuild_trace db3).
  unfold after, w1. cbn [w_trace w_peer w_now w_db]. split_and!; try done.
  - by rewrite <-!app_assoc.
  - constructor; [done|]. apply Forall_app. split; [apply compact_trace_sql|apply rebuild_trace_sql].
  - intros d Hd. right. exists ans, s. fold db2. rewrite Hcompact.
    split_and!; try done.
    by destruct (durable_doc db3); [injection Hd as ->|].
Qed.

(** A run of the push phase: the [/sv] call, then at most the [/update]
    call, carrying the diff of [ydoc] against the summary the peer just
    answered, and the [/compact] call; the database is not touched. *)
Lemma push_phase_run ydoc w w' r :
  let a_sv := (peer_fetch peer "GET" "/sv" None (w_peer w)).2 in
  push_phase peer ydoc w = (w', r) →
  w_db w' = w_db w ∧
  ∃ t,
    w_trace w' = w_trace w ++ Fetch "GET" "/sv" None a_sv :: t ∧
    (t = [] ∨
     ∃ ans_sv s delta a_up rest,
       a_sv = Ok ans_sv ∧ as_string (field "sv" ans_sv) = Some s ∧
       encodeStateAsUpdateFrom ydoc (from_base64 s) = Some delta ∧
       t = Fetch "POST" "/update"
             (Some (JObj [("update", JVal (JStr (to_base64 delta)))])) a_up :: rest ∧
       (rest = [] ∨ ∃ a_c, rest = [Fetch "POST" "/compact" None a_c])).
Proof.
  intros a_sv. subst a_sv. unfold push_phase.
  unfold mbind at 1, M_bind, bind. rewrite fetch_spec.
  destruct (peer_fetch peer "GET" "/sv" None (w_peer w)) as [p1 [ans_sv|e]];
    cbn [fst snd].
  2:{ intros [= <- <-]. split; [done|]. exists []. split; [done|by left]. }
  set (w1 := mkWorld (w_db w) (w_now w) p1 (w_trace w ++ [Fetch "GET" "/sv" None (Ok ans_sv)])).
  assert (∀ (x : result unit), (w1, x) = (w', r) →
            w_db w' = w_db w ∧
            ∃ t, w_trace w' = w_trace w ++ Fetch "GET" "/sv" None (Ok ans_sv) :: t ∧
                 (t = [] ∨
                  ∃ ans_sv0 s delta a_up rest,
                    Ok ans_sv = Ok ans_sv0 ∧ as_string (field "sv" ans_sv0) = Some s ∧
                    encodeStateAsUpdateFrom ydoc (from_base64 s) = Some delta ∧
                    t = Fetch "POST" "/update"
                          (Some (JObj [("update", JVal (JStr (to_base64 delta)))])) a_up
                          :: rest ∧
                    (rest = [] ∨ ∃ a_c, rest = [Fetch "POST" "/compact" None a_c])))
    as Hstop.
  { intros x [= <- <-]. split; [done|]. exists []. split; [done|by left]. }
  unfold mbind at 1, M_bind, bind. rewrite destructure_spec.
  destruct (is_null ans_sv); [by apply Hstop|].
  destruct (truthy (field "sv" ans_sv)); [|by apply Hstop].
  unfold mbind at 1, M_bind, bind. unfold Buffer_from.
  destruct (as_string (field "sv" ans_sv)) as [s|] eqn:Hs; [|by apply Hstop].
  unfold mbind at 1, M_bind, bind, ret at 1.
  destruct (encodeStateAsUpdateFrom ydoc (from_base64 s)) as [delta|] eqn:Hdelta;
    [|by apply Hstop].
  unfold Y_try, ret at 1.
  destruct (0 <? byteLength delta); [|by apply Hstop].
  clear Hstop.
  unfold mbind at 1, M_bind, bind. rewrite fetch_spec.
  set (body := Some (JObj [("update", JVal (JStr (to_base64 delta)))])).
  unfold w1. cbn [w_peer w_db w_now w_trace].
  destruct (peer_fetch peer "POST" "/update" body p1) as [p2 [a_up|e]]; cbn [fst snd].
  2:{ intros [= <- <-]. split; [done|]. exists [Fetch "POST" "/update" body (Throw e)].
      cbn [w_trace]. split; [by rewrite <-app_assoc|]. right.
      exists ans_sv, s, delta, (Throw e), []. split_and!; [done..|by left]. }
  unfold mbind at 1, M_bind, bind. rewrite fetch_spec. cbn [w_peer w_db w_now w_trace].
  destruct (peer_fetch peer "POST" "/compact" None p2) as [p3 a_c]; cbn [fst snd].
  intros Hrun.
  assert (w_db w' = w_db w ∧
          w_trace w' = ((w_trace w ++ [Fetch "GET" "/sv" None (Ok ans_sv)]) ++
                          [Fetch "POST" "/update" body (Ok a_up)]) ++
                       [Fetch "POST" "/compact" None a_c]) as [Hdb Htr].
  { by destruct a_c; injection Hrun as <- _. }
  split; [done|].
  exists [Fetch "POST" "/update" body (Ok a_up); Fetch "POST" "/compact" None a_c].
  split; [by rewrite Htr, <-!app_assoc|]. right.
  exists ans_sv, s, delta, (Ok a_up), [Fetch "POST" "/compact" None a_c].
  split_and!; [done..|]. right. by exists a_c.
Qed.




End Sync.




Section PushAfterPull.
Context `{E : YEngine} `{!DiffContract} `{!CodecContract} (peer : Peer).
Implicit Types (w : World peer) (db : DB).

#[local] Arguments compact_trace : simpl never.
#[local] Arguments rebuild_trace : simpl never.
#[local] Arguments compact : simpl never.
#[local] Arguments appended : simpl never.





End PushAfterPull.

(** *** Two replicas of this program *)

Section TwoReplicas.
Context `{E : YEngine} `{!DiffContract} `{!CodecContract}.




End TwoReplicas.

(** ** The storage helpers *)

(** X1.  Whatever binary value comes in, [_u8Arr2Buf] makes a [Buffer] of the
    same bytes and [_buf2U8Arr] reads it back as a [Uint8Array] of the same
    bytes; so does [_buf2U8Arr] on the [ArrayBuffer] of a stored BLOB.  Both
    reject exactly what is not binary, naming its [typeof]. *)
Theorem binary_round_trip (x : binary) :
  match x with
  | NotBinary t =>
      _u8Arr2Buf x = Throw (Error ("not a Uint8Array: " +:+ t)) ∧
      _buf2U8Arr x = Throw (Error ("not a buffer: " +:+ t))
  | _ =>
      ∃ buf u8,
        _u8Arr2Buf x = Ok buf ∧ Buffer_isBuffer buf = true ∧
        _buf2U8Arr buf = Ok u8 ∧ instanceof_Uint8Array u8 = true ∧
        contents u8 = contents x ∧
        _buf2U8Arr (ArrayBuffer (contents buf)) = Ok (Uint8Array (contents x))
  end.
Proof. destruct x; simpl; eauto 10. Qed.

Section Storage.
Context `{YEngine} (peer : Peer).
Implicit Types (w : World peer) (db : DB).


Lemma since_appended db now u o s :
  db_inv db → s ≤ sqlite_sequence db →
  order_by_seq (filter (λ r, since DOC_ID s r) (tbl_updates (appended now u o db)))
  = order_by_seq (filter (λ r, since DOC_ID s r) (tbl_updates db))
      ++ [updates.Row DOC_ID (sqlite_sequence db + 1) u o now].
Proof.
  intros Hdb Hs.
  pose proof (inv_sorted _ (db_inv_appended now u o db Hdb)) as Hsorted'.
  rewrite !order_by_seq_id by (apply sorted_filter; first [exact Hsorted'|apply Hdb]).
  simpl. rewrite filter_app, filter_cons, filter_nil.
  rewrite decide_True; [done|]. apply since_spec. simpl. split; [done|lia].
Qed.

(** X3.  In a reachable database, [dbInsertUpdate] returns the next sequence
    and a later [dbLoadUpdatesSince], from any bound the counter had
    reached, returns what it returned before followed by the new entry:
    entries are read back in the order they were appended. *)
Theorem append_then_load w u o s :
  reachable peer (w_db w) →
  s ≤ sqlite_sequence (w_db w) →
  let seq := sqlite_sequence (w_db w) + 1 in
  (dbInsertUpdate peer u o w).2 = Ok seq ∧
  ∃ l, (dbLoadUpdatesSince peer s w).2 = Ok l ∧
       (dbLoadUpdatesSince peer s (dbInsertUpdate peer u o w).1).2 = Ok (l ++ [(seq, u)]).
Proof.
  intros Hdb%reachable_inv Hs seq. rewrite dbInsertUpdate_spec. simpl. split.
  { unfold num_or. pose proof (inv_sequence _ Hdb).
    by destruct (Z.eqb_spec (sqlite_sequence (w_db w) + 1) 0); [lia|]. }
  eexists. split; [reflexivity|].
  unfold dbLoadUpdatesSince, exec. cbn [snd fst w_db after].
  f_equal. pose proof (since_appended (w_db w) (w_now w) u o s Hdb Hs) as Heq.
  simpl in Heq. by rewrite Heq, fmap_app.
Qed.

(** X4.  [dbDeleteUpdatesUpto s] reports how many rows it removed, and what a
    later [dbLoadUpdatesSince s0] returns is what the bound [max s0 s]
    would have returned before: entries above [s] are all kept, in order,
    and the snapshot rows and the sequence counter are not touched. *)
Theorem delete_then_load w s s0 :
  let w1 := (dbDeleteUpdatesUpto peer s w).1 in
  (dbLoadUpdatesSince peer s0 w1).2 = (dbLoadUpdatesSince peer (Z.max s0 s) w).2 ∧
  (dbDeleteUpdatesUpto peer s w).2
  = Ok (Z.of_nat (length (tbl_updates (w_db w))) - Z.of_nat (length (tbl_updates (w_db w1)))) ∧
  tbl_snapshots (w_db w1) = tbl_snapshots (w_db w) ∧
  sqlite_sequence (w_db w1) = sqlite_sequence (w_db w).
Proof.
  intros w1. subst w1. unfold dbDeleteUpdatesUpto, dbLoadUpdatesSince, exec. simpl.
  split_and!; try done.
  - do 3 f_equal. rewrite list_filter_filter. apply list_filter_iff. intros r.
    rewrite !since_spec, upto_spec. intuition lia.
  - rewrite num_or_0. f_equal.
    pose proof (filter_app_complement (λ r, upto DOC_ID s r) (tbl_updates (w_db w))) as Hp.
    apply Permutation_length in Hp. rewrite length_app in Hp. lia.
Qed.

(** X5.  [dbInit] forgets the document, not the sequence counter: afterwards no
    snapshot row is read, no entry is loaded from any bound, the maximum
    sequence reads 0, and the next append gets the sequence it would have
    got. *)
Theorem init_clears w s u o :
  let w1 := (dbInit peer w).1 in
  (dbGetSnapshotRow peer w1).2 = Ok {| snapBytes := None; lastSeq := 0 |} ∧
  (dbLoadUpdatesSince peer s w1).2 = Ok [] ∧
  (dbGetMaxSeq peer w1).2 = Ok 0 ∧
  (dbInsertUpdate peer u o w1).2 = (dbInsertUpdate peer u o w).2.
Proof.
  intros w1. subst w1.
  unfold dbInit, dbGetSnapshotRow, dbLoadUpdatesSince, dbGetMaxSeq, dbInsertUpdate, exec.
  monad_unfold. simpl. rewrite lookup_delete_eq, max_seq_other. split_and!; try done.
  do 2 f_equal. rewrite list_filter_filter.
  assert (filter (λ r, since DOC_ID s r ∧ updates.doc_id r ≠ DOC_ID) (tbl_updates (w_db w))
          = []) as ->; [|done].
  induction (tbl_updates (w_db w)) as [|x l IH]; [done|].
  rewrite filter_cons, IH. rewrite decide_False; [done|].
  rewrite since_spec. tauto.
Qed.

(** X6.  [dbLoadUpdatesSince s] changes nothing and returns the rows of the
    document with a sequence above [s], each once, by ascending sequence. *)
Theorem load_since_sorted w s :
  ∃ l,
    dbLoadUpdatesSince peer s w = (after w (w_db w) [Sql (SelectUpdatesSince s)], Ok l) ∧
    StronglySorted Z.le l.*1 ∧
    l ≡ₚ as_pending <$> filter (λ r, updates.doc_id r = DOC_ID ∧ s < updates.seq r)
                          (tbl_updates (w_db w)).
Proof.
  eexists. split; [reflexivity|]. split.
  - rewrite <-list_fmap_compose.
    pose proof (order_by_seq_sorted
                  (filter (λ r, since DOC_ID s r) (tbl_updates (w_db w)))) as Hs.
    induction Hs as [|x l Hl IH Hx]; [constructor|].
    rewrite fmap_cons. constructor; [done|].
    apply Forall_fmap. eapply Forall_impl; [exact Hx|]. done.
  - rewrite order_by_seq_perm. apply fmap_Permutation.
    erewrite list_filter_iff; [done|]. intros r. by rewrite since_spec.
Qed.

End Storage.

(** ** What no request does *)

Section Requests.
Context `{YEngine} (peer : Peer).
Implicit Types (w : World peer) (db : DB).

Lemma never_reused_stable db0 :
  stable (λ db, sqlite_sequence db0 ≤ sqlite_sequence db ∧
                ∀ r, r ∈ tbl_updates db →
                     r ∈ tbl_updates db0 ∨
                     sqlite_sequence db0 < updates.seq r ≤ sqlite_sequence db).
Proof.
  split.
  - intros now u o db [Hc Hr]. simpl. split; [lia|].
    intros r [Hin| ->%list_elem_of_singleton]%elem_of_app.
    + destruct (Hr r Hin); [by left|right; lia].
    + right. simpl. lia.
  - intros now db [Hc Hr]. unfold compact. repeat case_match; simpl; try done.
    split; [done|]. intros r [_ Hin]%list_elem_of_filter. by apply Hr.
Qed.

(** X7.  Sequences are never handed out twice: whatever request is served,
    [/init] and compactions included, the counter behind [AUTOINCREMENT]
    does not go down, and a row of the log that was not there before has a
    sequence above the counter's old value. *)
Theorem sequences_never_reused req db db' :
  db_step peer req db db' →
  sqlite_sequence db ≤ sqlite_sequence db' ∧
  ∀ r, r ∈ tbl_updates db' →
       r ∈ tbl_updates db ∨ sqlite_sequence db < updates.seq r ≤ sqlite_sequence db'.
Proof.
  intros (t & p & tr & ->). destruct (is_init req) eqn:Hreq.
  - destruct req; try discriminate. unfold handle. rewrite get_init_spec. simpl.
    split; [done|]. intros r [_ Hin]%list_elem_of_filter. by left.
  - apply (handle_preserves peer _ req (never_reused_stable db) Hreq (mkWorld db t p tr)).
    simpl. split; [done|]. by left.
Qed.

Lemma other_documents_stable (l0 : list updates.row) (m0 : gmap string snapshots.row) :
  stable (λ db, filter (λ r, updates.doc_id r ≠ DOC_ID) (tbl_updates db) = l0 ∧
                ∀ k, k ≠ DOC_ID → tbl_snapshots db !! k = m0 !! k).
Proof.
  split.
  - intros now u o db [Hl Hm]. simpl. split; [|done].
    rewrite filter_app, filter_cons, filter_nil, decide_False, app_nil_r; [done|].
    simpl. by intros [].
  - intros now db [Hl Hm]. unfold compact. repeat case_match; simpl; try done.
    split.
    + rewrite <-Hl, list_filter_filter. apply list_filter_iff. intros r.
      rewrite upto_spec. tauto.
    + intros k Hk. rewrite lookup_insert_ne by done. by apply Hm.
Qed.

Lemma db_step_other_rows req db db' :
  db_step peer req db db' →
  filter (λ r, updates.doc_id r ≠ DOC_ID) (tbl_updates db')
  = filter (λ r, updates.doc_id r ≠ DOC_ID) (tbl_updates db).
Proof.
  intros (t & p & tr & ->). destruct (is_init req) eqn:Hreq.
  - destruct req; try discriminate. unfold handle. rewrite get_init_spec. simpl.
    rewrite list_filter_filter. apply list_filter_iff. tauto.
  - by apply (handle_preserves peer _ req (other_documents_stable _ (tbl_snapshots db)) Hreq
                (mkWorld db t p tr)).
Qed.

(** X8.  Every statement is scoped to [DOC_ID]: whatever request is served, the
    log rows and the snapshot rows of other documents are as they were. *)
Theorem other_documents_untouched req db db' :
  db_step peer req db db' →
  filter (λ r, updates.doc_id r ≠ DOC_ID) (tbl_updates db')
  = filter (λ r, updates.doc_id r ≠ DOC_ID) (tbl_updates db) ∧
  ∀ k, k ≠ DOC_ID → tbl_snapshots db' !! k = tbl_snapshots db !! k.
Proof.
  intros (t & p & tr & ->). destruct (is_init req) eqn:Hreq.
  - destruct req; try discriminate. unfold handle. rewrite get_init_spec. simpl. split.
    + rewrite list_filter_filter. apply list_filter_iff. tauto.
    + intros k Hk. by rewrite lookup_insert_ne, lookup_delete_ne.
  - by apply (handle_preserves peer _ req (other_documents_stable _ _) Hreq
                (mkWorld db t p tr)).
Qed.

Lemma filter_all {A} (P : A → Prop) `{!∀ x, Decision (P x)} (l : list A) :
  Forall P l → filter P l = l.
Proof.
  induction 1 as [|x l Hx Hl IH]; [done|]. by rewrite filter_cons, decide_True, IH.
Qed.

Lemma filter_none {A} (P : A → Prop) `{!∀ x, Decision (P x)} (l : list A) :
  Forall (λ x, ¬ P x) l → filter P l = [].
Proof.
  induction 1 as [|x l Hx Hl IH]; [done|]. by rewrite filter_cons, decide_False, IH.
Qed.

Lemma reachable_only_document db :
  reachable peer db → Forall (λ r, updates.doc_id r = DOC_ID) (tbl_updates db).
Proof.
  intros Hreach.
  assert (filter (λ r, updates.doc_id r ≠ DOC_ID) (tbl_updates db) = []) as Hother.
  { induction Hreach as [|req db db' _ IH Hstep]; [done|].
    by rewrite (db_step_other_rows req db db' Hstep). }
  apply Forall_forall. intros r Hr.
  destruct (decide (updates.doc_id r = DOC_ID)) as [|Hne]; [done|].
  by apply (filter_nil_not_elem_of _ _ r Hother) in Hne.
Qed.

Lemma reachable_pending_all db :
  reachable peer db →
  retained db = tbl_updates db ∧ pending db = as_pending <$> tbl_updates db.
Proof.
  intros Hreach.
  assert (retained db = tbl_updates db) as Hret.
  { apply filter_all, reachable_only_document, Hreach. }
  split; [done|]. pose proof (reachable_inv peer db Hreach) as Hinv.
  unfold pending, pending_rows. rewrite filter_since_retained, Hret by done.
  rewrite order_by_seq_id; [done|apply Hinv].
Qed.

(** X9.  The log of a reachable database holds entries of the document only,
    stored by strictly increasing sequence, each above the watermark and at
    most the counter: all of it is pending, and [dbLoadUpdatesSince] at the
    watermark returns it in storage order. *)
Theorem reachable_log_shape db :
  reachable peer db →
  StronglySorted (λ r1 r2, updates.seq r1 < updates.seq r2) (tbl_updates db) ∧
  Forall (λ r, updates.doc_id r = DOC_ID ∧
               watermark db < updates.seq r ≤ sqlite_sequence db) (tbl_updates db) ∧
  pending db = as_pending <$> tbl_updates db.
Proof.
  intros Hreach. destruct (reachable_pending_all db Hreach) as [Hret Hpend].
  pose proof (reachable_only_document db Hreach) as Hdoc.
  pose proof (reachable_inv peer db Hreach) as [Hs Hb Hso Hw Ha].
  split; [done|]. split; [|done].
  rewrite Hret in Ha. apply Forall_forall. intros r Hr.
  eapply Forall_forall in Ha; [|exact Hr]. eapply Forall_forall in Hb; [|exact Hr].
  eapply Forall_forall in Hdoc; [|exact Hr]. split; [done|lia].
Qed.

End Requests.

Section Watermark.
Context `{YEngine} (peer : Peer).
Implicit Types (w : World peer) (db : DB).

Lemma watermark_stable s0 : stable (λ db, s0 ≤ watermark db).
Proof.
  split; [done|]. intros now db Hdb. unfold compact. repeat case_match; try done.
  simpl. rewrite watermark_compacted.
  destruct (last_applied_pending db) as [[_ ->]|(_ & r & Hr & -> & _)]; [done|].
  apply elem_of_pending_rows in Hr as (_ & _ & Hlt). lia.
Qed.

(** X10.  Between two [/init] the watermark never goes down, whatever requests
    are served and whatever their outcome. *)
Theorem watermark_monotone db0 db :
  same_incarnation peer db0 db → watermark db0 ≤ watermark db.
Proof.
  induction 1 as [|req db db' _ IH Hreq (t & p & tr & ->)]; [done|].
  by apply (handle_preserves peer _ req (watermark_stable (watermark db0)) Hreq
              (mkWorld db t p tr)).
Qed.

End Watermark.

Section MaxSeq.
Context `{YEngine} (peer : Peer).
Implicit Types (w : World peer) (db : DB).

Lemma max_seq_fold l :
  match foldr (λ r m, if bool_decide (updates.doc_id r = DOC_ID)
                      then Some (from_option (Z.max (updates.seq r)) (updates.seq r) m)
                      else m) None l with
  | None => Forall (λ r, updates.doc_id r ≠ DOC_ID) l
  | Some m =>
      (∃ r, r ∈ l ∧ updates.doc_id r = DOC_ID ∧ updates.seq r = m) ∧
      ∀ x, x ∈ l → updates.doc_id x = DOC_ID → updates.seq x ≤ m
  end.
Proof.
  induction l as [|x l IH]; simpl; [constructor|].
  case_bool_decide as Hx.
  - destruct (foldr _ None l) as [m|]; simpl.
    + destruct IH as [(r & Hr & Hdoc & Hm) Hle]. split.
      * destruct (Z.max_spec (updates.seq x) m) as [[_ ->]|[_ ->]].
        -- exists r. split; [by right|done].
        -- exists x. split; [left|done].
      * intros y [->|Hy]%elem_of_cons Hd; [lia|]. specialize (Hle y Hy Hd). lia.
    + split; [exists x; split; [left|done]|].
      intros y [->|Hy]%elem_of_cons Hd; [lia|].
      eapply Forall_forall in IH; [|exact Hy]. done.
  - destruct (foldr _ None l) as [m|]; simpl.
    + destruct IH as [(r & Hr & Hdoc & Hm) Hle]. split.
      * exists r. split; [by right|done].
      * intros y [->|Hy]%elem_of_cons Hd; [done|by apply Hle].
    + by constructor.
Qed.

(** X11.  [dbGetMaxSeq] reads: 0 when the log holds no entry of the document,
    and otherwise the sequence of one of its entries that none exceeds. *)
Theorem max_seq_is_max w :
  ∃ m, dbGetMaxSeq peer w = (after w (w_db w) [Sql SelectMaxSeq], Ok m) ∧
       (retained (w_db w) = [] ∧ m = 0 ∨
        ∃ r, r ∈ retained (w_db w) ∧ updates.seq r = m ∧
             ∀ x, x ∈ retained (w_db w) → updates.seq x ≤ m).
Proof.
  eexists. split; [reflexivity|]. rewrite num_or_0. unfold max_seq.
  pose proof (max_seq_fold (tbl_updates (w_db w))) as Hfold.
  destruct (foldr _ None (tbl_updates (w_db w))) as [m|]; simpl.
  - destruct Hfold as [(r & Hr & Hdoc & Hm) Hle].
    assert (∀ x, x ∈ retained (w_db w) → updates.seq x ≤ m) as Hle'.
    { intros x [Hx Hd]%elem_of_retained. by apply Hle. }
    right. exists r. split; [by apply elem_of_retained|done].
  - assert (retained (w_db w) = []) as Hnil.
    { unfold retained. apply filter_none. eapply Forall_impl; [exact Hfold|]. done. }
    by left.
Qed.

End MaxSeq.

(** ** Outcomes of a compaction *)

Section CompactionOutcomes.
Context `{YEngine} (peer : Peer).
Implicit Types (w : World peer) (db : DB).

Lemma compact_unchanged_or_compacted now db :
  (compact now db).1 = db ∨
  ∃ tmp res, compact now db = (compacted now db tmp, Ok res).
Proof.
  unfold compact. repeat case_match; simpl; eauto.
Qed.

Lemma compact_throw now db e : (compact now db).2 = Throw e → (compact now db).1 = db.
Proof. unfold compact. by repeat case_match. Qed.

(** X12.  [POST /compact] always answers, 200 or 500, and whatever made
    [syncCompact] throw (a snapshot that does not load, a pending entry that
    does not apply), the database is then the one before the attempt. *)
Theorem compact_failure_changes_nothing w :
  ∃ resp,
    (post_compact peer w).2 = Ok resp ∧
    (status resp = 200 ∧ (∃ res, (syncCompact peer w).2 = Ok res) ∨
     status resp = 500 ∧ (∃ e, (syncCompact peer w).2 = Throw e) ∧
     w_db (post_compact peer w).1 = w_db w ∧
     w_db (syncCompact peer w).1 = w_db w).
Proof.
  unfold post_compact. monad_unfold. rewrite syncCompact_spec. simpl.
  destruct (compact (w_now w) (w_db w)) as [db' [res|e]] eqn:Hc; simpl.
  - eexists. split; [done|]. left. eauto.
  - eexists. split; [done|]. right. split; [done|]. split; [eauto|].
    pose proof (compact_throw (w_now w) (w_db w) e) as Hdb. rewrite Hc in Hdb.
    specialize (Hdb eq_refl). simpl in Hdb. by subst db'.
Qed.

(** X13.  Compaction is idempotent on the database: a second [syncCompact] right
    after a first one, whatever the outcome of either, changes nothing. *)
Theorem compaction_idempotent w :
  w_db (syncCompact peer (syncCompact peer w).1).1 = w_db (syncCompact peer w).1.
Proof.
  rewrite !syncCompact_spec. simpl.
  destruct (compact_unchanged_or_compacted (w_now w) (w_db w)) as [Hsame|(tmp & res & Hc)].
  - rewrite Hsame.
    destruct (compact_unchanged_or_compacted (w_now w) (w_db w)) as [Hsame'|(tmp & res & Hc)];
      [done|].
    rewrite Hc in Hsame. simpl in Hsame. by rewrite Hc, Hsame.
  - rewrite Hc. simpl. unfold compact at 1. rewrite pending_compacted. simpl.
    by destruct (create_from _).
Qed.

(** A successful compaction of a well-formed log of the document alone
    leaves none of it. *)
Lemma compact_ok_empty now db res :
  db_inv db → Forall (λ r, updates.doc_id r = DOC_ID) (tbl_updates db) →
  (compact now db).2 = Ok res →
  tbl_updates (compact now db).1 = [] ∧
  applied res = Z.of_nat (length (tbl_updates db)) ∧
  deleted res = applied res.
Proof.
  intros Hinv Hdoc.
  assert (retained db = tbl_updates db) as Hret by by apply filter_all.
  assert (pending db = as_pending <$> tbl_updates db) as Hpend.
  { unfold pending. by rewrite pending_rows_inv, Hret. }
  unfold compact. destruct (create_from _) as [tmp|]; [|done].
  destruct (Z.eqb_spec (Z.of_nat (length (pending db))) 0) as [Hlen|Hlen].
  { intros [= <-]. simpl. rewrite Hpend, length_fmap in Hlen.
    destruct (tbl_updates db); [done|simpl in Hlen; lia]. }
  destruct (replay tmp (pending db)) as [tmp'|]; [|done].
  intros [= <-]. simpl.
  assert (Forall (λ r, upto DOC_ID (last_applied (watermark db) (pending db)) r)
            (tbl_updates db)) as Hall.
  { apply Forall_forall. intros r Hr. apply upto_spec.
    eapply Forall_forall in Hdoc as Hd; [|exact Hr]. split; [done|].
    assert (r ∈ retained db) as Hr' by by rewrite Hret.
    destruct Hinv as [_ _ _ _ Ha]. eapply Forall_forall in Ha; [|exact Hr'].
    destruct (last_applied_pending db) as [[Hnil _]|(_ & x & _ & -> & Hmax)].
    { by rewrite Hnil in Hlen. }
    apply Hmax, elem_of_pending_rows. done. }
  split_and!.
  - apply filter_none. eapply Forall_impl; [exact Hall|]. simpl. tauto.
  - by rewrite Hpend, length_fmap.
  - by rewrite num_or_0, filter_all, Hpend, length_fmap.
Qed.

(** X14.  After a successful compaction of a reachable database the log holds no
    entry of the document, and the run reports as many entries deleted as
    applied: all the log held. *)
Theorem compaction_empties_log w res :
  reachable peer (w_db w) →
  (syncCompact peer w).2 = Ok res →
  tbl_updates (w_db (syncCompact peer w).1) = [] ∧
  applied res = Z.of_nat (length (tbl_updates (w_db w))) ∧
  deleted res = applied res.
Proof.
  intros Hreach. rewrite syncCompact_spec. simpl.
  apply compact_ok_empty; [by apply (reachable_inv peer)|by apply (reachable_only_document peer)].
Qed.

Lemma wedged_stable :
  stable (λ db, db_inv db ∧
                ∃ tmp, create_from (snapshot_state db) = Some tmp ∧
                       replay tmp (pending db) = None).
Proof.
  split.
  - intros now u o db (Hinv & tmp & Htmp & Hreplay).
    split; [by apply db_inv_appended|]. exists tmp. split; [done|].
    by rewrite pending_appended, replay_app, Hreplay.
  - intros now db (Hinv & tmp & Htmp & Hreplay). unfold compact. rewrite Htmp, Hreplay.
    destruct (_ =? 0); simpl; eauto.
Qed.

(** X15.  A pending entry the engine rejects wedges the replica.  Once the
    snapshot loads and the fold of the pending entries fails, then after any
    further requests other than [/init], compaction still fails and changes
    nothing, [POST /compact] answers 500, the durable document does not
    rebuild, and [/do-sync] throws before any call to the peer. *)
Theorem rejected_entry_wedges db0 tmp w :
  reachable peer db0 →
  create_from (snapshot_state db0) = Some tmp →
  replay tmp (pending db0) = None →
  same_incarnation peer db0 (w_db w) →
  (syncCompact peer w).2 = Throw (Error "failed to apply pending updates") ∧
  w_db (syncCompact peer w).1 = w_db w ∧
  (post_compact peer w).2
  = Ok (Response 500 (JObj [("error", JVal (JStr "internal_error"))])) ∧
  (rebuildDurableDoc peer w).2 = Throw Y_error ∧
  get_do_sync peer w
  = (after w (w_db w) (compact_trace (w_db w)),
     Throw (Error "failed to apply pending updates")).
Proof.
  intros Hinv%reachable_inv Htmp Hreplay Hsame.
  assert (db_inv (w_db w) ∧
          ∃ tmp, create_from (snapshot_state (w_db w)) = Some tmp ∧
                 replay tmp (pending (w_db w)) = None) as (_ & tmp' & Htmp' & Hreplay').
  { induction Hsame as [|req db db' _ IH Hreq (t & p & tr & ->)]; [eauto|].
    by apply (handle_preserves peer _ req wedged_stable Hreq (mkWorld db t p tr)). }
  assert (compact (w_now w) (w_db w)
          = (w_db w, Throw (Error "failed to apply pending updates"))) as Hc.
  { unfold compact. rewrite Htmp', Hreplay'.
    destruct (Z.eqb_spec (Z.of_nat (length (pending (w_db w)))) 0) as [Hlen|]; [|done].
    destruct (pending (w_db w)); [done|simpl in Hlen; lia]. }
  unfold post_compact, get_do_sync. monad_unfold.
  rewrite rebuildDurableDoc_spec, !syncCompact_spec, Hc. simpl.
  unfold durable_doc. rewrite Htmp'. simpl. by rewrite Hreplay'.
Qed.

End CompactionOutcomes.

Section CompactionContract.
Context `{MergeContract} (peer : Peer).
Implicit Types (w : World peer) (db : DB).

(** A full state the engine encoded loads into a fresh document. *)
Lemma create_from_encoded d : ∃ d', create_from (Some (encodeStateAsUpdate d)) = Some d'.
Proof.
  unfold create_from. destruct (0 <? byteLength (encodeStateAsUpdate d)); [|by eexists].
  destruct (create_from_encode d) as (d' & -> & _). by eexists.
Qed.

(** X16.  Under the engine's merge contract, a [syncCompact] right after a
    successful one finds nothing to do: it reports nothing applied and
    nothing deleted, at the watermark and with the snapshot size the first
    run reported. *)
Theorem compaction_rerun_report w res :
  (syncCompact peer w).2 = Ok res →
  (syncCompact peer (syncCompact peer w).1).2
  = Ok {| applied := 0; deleted := 0;
          before_last_seq := after_last_seq res; after_last_seq := after_last_seq res;
          snapshot_bytes := snapshot_bytes res |}.
Proof.
  rewrite !syncCompact_spec. simpl. unfold compact at 1 3.
  destruct (create_from (snapshot_state (w_db w))) as [tmp|] eqn:Hsnap; [|done].
  destruct (Z.of_nat (length (pending (w_db w))) =? 0) eqn:Hlen.
  { intros [= <-]. simpl. unfold compact. by rewrite Hsnap, Hlen. }
  destruct (replay tmp (pending (w_db w))) as [tmp'|]; [|done].
  intros [= <-]. simpl. unfold compact. rewrite pending_compacted, watermark_compacted.
  assert (snapshot_state (compacted (w_now w) (w_db w) tmp')
          = Some (encodeStateAsUpdate tmp')) as ->.
  { unfold snapshot_state, snapshot_view, compacted. simpl. by rewrite lookup_insert_eq. }
  by destruct (create_from_encoded tmp') as [d' ->].
Qed.

Lemma snapshot_encoded_stable :
  stable (λ db, ∀ b, snapshot_state db = Some b → ∃ d, b = encodeStateAsUpdate d).
Proof.
  split; [done|]. intros now db Hdb. unfold compact. repeat case_match; try done.
  simpl. unfold snapshot_state, snapshot_view, compacted. simpl. rewrite lookup_insert_eq.
  simpl. intros b [= <-]. by eexists.
Qed.

Lemma reachable_snapshot_encoded db :
  reachable peer db → ∀ b, snapshot_state db = Some b → ∃ d, b = encodeStateAsUpdate d.
Proof.
  induction 1 as [|req db db' _ IH (t & p & tr & ->)]; [done|].
  destruct (is_init req) eqn:Hreq.
  - destruct req; try discriminate. unfold handle. rewrite get_init_spec. simpl.
    unfold snapshot_state, snapshot_view, initialised. simpl. rewrite lookup_insert_eq.
    simpl. intros b [= <-]. by eexists.
  - by apply (handle_preserves peer _ req snapshot_encoded_stable Hreq (mkWorld db t p tr)).
Qed.

Lemma reachable_snapshot_loads db :
  reachable peer db → ∃ d, create_from (snapshot_state db) = Some d.
Proof.
  intros Hreach. destruct (snapshot_state db) as [b|] eqn:Hb; [|by eexists].
  destruct (reachable_snapshot_encoded db Hreach b Hb) as [d ->].
  apply create_from_encoded.
Qed.

(** X17.  The snapshot row of a reachable database is always a full state the
    engine encoded, written by [/init] or by a compaction.  Under the
    engine's merge contract it therefore always loads, and the only way
    [syncCompact] fails is on a pending entry: with "failed to apply pending
    updates". *)
Theorem snapshot_always_loads w :
  reachable peer (w_db w) →
  (∀ b, snapshot_state (w_db w) = Some b → ∃ d, b = encodeStateAsUpdate d) ∧
  (∃ d, (load_snapshot peer (snapshot_state (w_db w)) w).2 = Ok d) ∧
  (∀ e, (syncCompact peer w).2 = Throw e → e = Error "failed to apply pending updates").
Proof.
  intros Hreach. split; [by apply reachable_snapshot_encoded|].
  destruct (reachable_snapshot_loads _ Hreach) as [d Hd]. split.
  - exists d. by rewrite load_snapshot_spec, Hd.
  - intros e. rewrite syncCompact_spec. simpl. unfold compact. rewrite Hd.
    repeat case_match; try done. by intros [= <-].
Qed.

End CompactionContract.

Section InitRecovers.
Context `{MergeContract} (peer : Peer).
Implicit Types (w : World peer) (db : DB).

Lemma pending_no_retained db : retained db = [] → pending db = [].
Proof.
  intros Hnil. unfold pending. destruct (pending_rows db) as [|x l] eqn:Hx; [done|].
  assert (x ∈ pending_rows db) as Hin by (rewrite Hx; left).
  apply elem_of_pending_rows in Hin as (Hin & Hdoc & _).
  assert (x ∈ retained db) as Hr by by apply elem_of_retained.
  rewrite Hnil in Hr. by apply not_elem_of_nil in Hr.
Qed.

(** X18.  [/init] always recovers the replica.  Whatever the database held (a
    snapshot that does not load, a pending entry the engine rejects), right
    after [/init] the durable document rebuilds, to the seeded state under
    the engine's merge contract, and a compaction succeeds with nothing to
    do, at watermark 0. *)
Theorem init_recovers cid w :
  let w1 := (get_init peer cid w).1 in
  (∃ d, (rebuildDurableDoc peer w1).2 = Ok d ∧ d ≡ seed_doc cid) ∧
  (syncCompact peer w1).2
  = Ok {| applied := 0; deleted := 0; before_last_seq := 0; after_last_seq := 0;
          snapshot_bytes := byteLength (encodeStateAsUpdate (seed_doc cid)) |} ∧
  w_db (syncCompact peer w1).1 = w_db w1.
Proof.
  intros w1. subst w1. rewrite get_init_spec. cbn [fst].
  rewrite rebuildDurableDoc_spec, syncCompact_spec. cbn [fst snd w_db after].
  set (db1 := initialised (w_now w) cid (w_db w)).
  assert (pending db1 = []) as Hpend by apply pending_no_retained, retained_initialised.
  assert (snapshot_state db1 = Some (encodeStateAsUpdate (seed_doc cid))) as Hsnap.
  { unfold db1, snapshot_state, snapshot_view, initialised. simpl.
    by rewrite lookup_insert_eq. }
  assert (watermark db1 = 0) as Hwm by apply watermark_initialised.
  assert (∃ d, create_from (snapshot_state db1) = Some d ∧ d ≡ seed_doc cid)
    as (d & Hd & Heq).
  { rewrite Hsnap. unfold create_from.
    destruct (Z.ltb_spec 0 (byteLength (encodeStateAsUpdate (seed_doc cid)))) as [Hlen|Hlen].
    - destruct (create_from_encode (seed_doc cid)) as (d & -> & Hd). by exists d.
    - exists Y_Doc. split; [done|]. symmetry. apply encode_zero_length.
      unfold byteLength in *. lia. }
  unfold durable_doc, compact. rewrite Hd, Hpend, Hwm, Hsnap. simpl. split; [|done].
  by exists d.
Qed.

End InitRecovers.

Section WriteOrder.
Context `{YEngine} (peer : Peer).
Implicit Types (w : World peer) (db : DB).

(** X19.  [syncCompact] deletes log entries only as its last statement, right
    after it wrote the snapshot at the same watermark; before those two
    writes it only reads.  It never inserts, and never deletes the snapshot
    row. *)
Theorem compaction_write_order w :
  ∃ tr,
    w_trace (syncCompact peer w).1 = w_trace w ++ tr ∧
    (tr `prefix_of` [Sql SelectSnapshot; Sql (SelectUpdatesSince (watermark (w_db w)))] ∧
     w_db (syncCompact peer w).1 = w_db w ∨
     ∃ s, tr = [Sql SelectSnapshot; Sql (SelectUpdatesSince (watermark (w_db w)));
                Sql (UpsertSnapshot s); Sql (DeleteUpdatesUpto s)] ∧
          watermark (w_db (syncCompact peer w).1) = s).
Proof.
  rewrite syncCompact_spec. exists (compact_trace (w_db w)). split; [done|].
  unfold compact_trace, compact. cbn [fst w_db after].
  destruct (create_from _) as [tmp|]; cbn [fst].
  2:{ left. split; [|done]. by exists [Sql (SelectUpdatesSince (watermark (w_db w)))]. }
  destruct (_ =? 0); cbn [fst]; [by left|].
  destruct (replay _ _); cbn [fst]; [|by left].
  right. eexists. split; [done|]. by rewrite watermark_compacted.
Qed.

End WriteOrder.

(** ** Runs of [/do-sync] *)

Section SyncRuns.
Context `{YEngine} (peer : Peer).
Implicit Types (w : World peer) (db : DB).

#[local] Arguments compact_trace : simpl never.
#[local] Arguments rebuild_trace : simpl never.
#[local] Arguments compact : simpl never.
#[local] Arguments appended : simpl never.

Lemma calls_app t1 t2 : calls (t1 ++ t2) = calls t1 ++ calls t2.
Proof. apply omap_app. Qed.

Lemma calls_sql t : Forall (λ e, is_sql e) t → calls t = [].
Proof.
  induction 1 as [|e t He _ IH]; [done|]. destruct e; [|done]. exact IH.
Qed.






Lemma do_sync_calls w w' r :
  get_do_sync peer w = (w', r) →
  ∃ tr,
    w_trace w' = w_trace w ++ tr ∧
    calls tr `prefix_of`
      [("POST", "/diff"); ("GET", "/sv"); ("POST", "/update"); ("POST", "/compact")] ∧
    ((∃ e, (compact (w_now w) (w_db w)).2 = Throw e) → calls tr = []).
Proof.
  rewrite get_do_sync_phases.
  unfold mbind at 1, M_bind, bind. rewrite syncCompact_spec.
  pose proof (compact_trace_sql (w_db w)) as Hlocal.
  destruct (compact (w_now w) (w_db w)) as [db1 [res|e]]; cbn [fst snd].
  2:{ intros [= <- <-]. exists (compact_trace (w_db w)). split; [reflexivity|].
      rewrite calls_sql by done. split; [apply prefix_nil|done]. }
  unfold mbind at 1, M_bind, bind. rewrite rebuildDurableDoc_spec, after_after.
  cbn [w_db after].
  pose proof (rebuild_trace_sql db1) as Hrebuild.
  assert (calls (compact_trace (w_db w) ++ rebuild_trace db1) = []) as Hsql.
  { apply calls_sql, Forall_app. by split. }
  destruct (durable_doc db1) as [ydoc|].
  2:{ intros [= <- <-]. exists (compact_trace (w_db w) ++ rebuild_trace db1).
      split; [reflexivity|]. rewrite Hsql. split; [apply prefix_nil|].
      by intros [e [=]]. }
  set (w1 := after w db1 _).
  unfold mbind at 1, M_bind, bind.
  destruct (pull_phase peer ydoc w1) as [w2 r2] eqn:Hpull.
  apply pull_phase_run in Hpull as (t_sql & Htr2 & Hsql2 & _).
  set (diff := Fetch "POST" "/diff" _ _) in Htr2.
  assert (w_trace w2 = w_trace w ++
            (compact_trace (w_db w) ++ rebuild_trace db1) ++ diff :: t_sql) as Htr2'.
  { rewrite Htr2. unfold w1, after. cbn [w_trace]. by rewrite <-app_assoc. }
  assert (calls ((compact_trace (w_db w) ++ rebuild_trace db1) ++ diff :: t_sql)
          = [("POST", "/diff")]) as Hcalls2.
  { rewrite calls_app, Hsql. unfold diff. simpl. by rewrite calls_sql. }
  destruct r2 as [d|e].
  2:{ intros [= <- <-]. eexists. split; [exact Htr2'|]. rewrite Hcalls2.
      split; [|by intros [e' [=]]].
      by exists [("GET", "/sv"); ("POST", "/update"); ("POST", "/compact")]. }
  unfold mbind at 1, M_bind, bind.
  destruct (push_phase peer d w2) as [w3 r3] eqn:Hpush.
  apply push_phase_run in Hpush as (_ & t & Htr3 & Ht).
  set (sv := Fetch "GET" "/sv" _ _) in Htr3.
  intros Hrun.
  assert (w' = w3) as -> by (by destruct r3; injection Hrun as <- _).
  exists (((compact_trace (w_db w) ++ rebuild_trace db1) ++ diff :: t_sql) ++ sv :: t).
  split; [by rewrite Htr3, Htr2', <-app_assoc|].
  split; [|by intros [e [=]]].
  rewrite calls_app, Hcalls2. unfold sv.
  destruct Ht as [->|(ans_sv & s & delta & a_up & rest & _ & _ & _ & -> & [->|[a_c ->]])];
    simpl.
  - by exists [("POST", "/update"); ("POST", "/compact")].
  - by exists [("POST", "/compact")].
  - by exists [].
Qed.

(** X22.  The calls [/do-sync] makes to the peer are, in this order and each at
    most once, [POST /diff], [GET /sv], [POST /update], [POST /compact]:
    a later call is never made without the earlier ones.  When the local
    compaction throws, no call is made at all. *)
Theorem do_sync_call_order w :
  ∃ tr,
    w_trace (get_do_sync peer w).1 = w_trace w ++ tr ∧
    calls tr `prefix_of`
      [("POST", "/diff"); ("GET", "/sv"); ("POST", "/update"); ("POST", "/compact")] ∧
    ((∃ e, (syncCompact peer w).2 = Throw e) → calls tr = []).
Proof.
  destruct (get_do_sync peer w) as [w' r] eqn:Hrun.
  apply do_sync_calls in Hrun as (tr & Htr & Hprefix & Hlocal).
  exists tr. rewrite syncCompact_spec. done.
Qed.

End SyncRuns.

Section NoPeer.
Context `{YEngine}.
Implicit Types (w : World no_peer).

#[local] Arguments compact_trace : simpl never.
#[local] Arguments rebuild_trace : simpl never.
#[local] Arguments compact : simpl never.

Lemma do_sync_no_peer w w' r :
  get_do_sync no_peer w = (w', r) →
  ∃ e, r = Throw e ∧
       w_db w' = (compact (w_now w) (w_db w)).1 ∧
       ∃ tr, w_trace w' = w_trace w ++ tr ∧ (length (calls tr) ≤ 1)%nat.
Proof.
  rewrite get_do_sync_phases.
  unfold mbind at 1, M_bind, bind. rewrite syncCompact_spec.
  pose proof (compact_trace_sql (w_db w)) as Hlocal.
  destruct (compact (w_now w) (w_db w)) as [db1 [res|e]]; cbn [fst snd].
  2:{ intros [= <- <-]. exists e. split; [done|]. split; [reflexivity|].
      exists (compact_trace (w_db w)). split; [reflexivity|].
      rewrite calls_sql by done. simpl. lia. }
  unfold mbind at 1, M_bind, bind. rewrite rebuildDurableDoc_spec, after_after.
  cbn [w_db after].
  pose proof (rebuild_trace_sql db1) as Hrebuild.
  assert (calls (compact_trace (w_db w) ++ rebuild_trace db1) = []) as Hsql.
  { apply calls_sql, Forall_app. by split. }
  destruct (durable_doc db1) as [ydoc|].
  2:{ intros [= <- <-]. exists Y_error. split; [done|]. split; [done|].
      exists (compact_trace (w_db w) ++ rebuild_trace db1).
      split; [reflexivity|]. rewrite Hsql. simpl. lia. }
  unfold mbind at 1, M_bind, bind. unfold pull_phase. cbv zeta.
  unfold mbind at 1, M_bind, bind. rewrite fetch_spec. cbn [no_peer peer_fetch fst snd].
  intros [= <- <-]. exists (Error "fetch failed"). split; [done|]. split; [done|].
  exists ((compact_trace (w_db w) ++ rebuild_trace db1)
            ++ [Fetch "POST" "/diff"
                  (Some (JObj [("sv", JVal (JStr (to_base64 (encodeStateVector ydoc))))]))
                  (Throw (Error "fetch failed"))]).
  unfold after. cbn [w_trace]. split; [by rewrite <-app_assoc|].
  rewrite calls_app, Hsql. simpl. lia.
Qed.

(** X23.  With a peer that cannot be reached, [/do-sync] always fails, after the
    local compaction and at most one call: the database it leaves is the
    compacted one. *)
Theorem do_sync_unreachable_peer w :
  ∃ e, (get_do_sync no_peer w).2 = Throw e ∧
       w_db (get_do_sync no_peer w).1 = (compact (w_now w) (w_db w)).1 ∧
       ∃ tr, w_trace (get_do_sync no_peer w).1 = w_trace w ++ tr ∧
             (length (calls tr) ≤ 1)%nat.
Proof.
  destruct (get_do_sync no_peer w) as [w' r] eqn:Hrun. by apply do_sync_no_peer in Hrun.
Qed.

End NoPeer.

(** ** The read-only endpoints and the snapshot view *)






Section SnapshotEndpoint.
Context `{YShared} (peer : Peer).
Implicit Types (w : World peer) (db : DB).

Lemma get_snapshot_spec w :
  get_snapshot peer w
  = (after w (w_db w) [Sql SelectSnapshot],
     Ok match create_from (snapshot_state (w_db w)) with
        | Some tmp => TreeResponse 200 (snapshot_body (snapshot_state (w_db w)) tmp)
        | None => TreeResponse 500 (TObj [("error", TVal (JStr "internal_error"))])
        end).
Proof.
  unfold get_snapshot, snapshot_body, create_from. unfold try_catch.
  unfold mbind at 1, M_bind, bind. rewrite dbGetSnapshotRow_spec.
  fold (snapshot_state (w_db w)).
  destruct (snapshot_state (w_db w)) as [b|]; simpl; [|done].
  destruct (0 <? byteLength b); [|done].
  monad_unfold. by destruct (applyUpdate Y_Doc b).
Qed.

Lemma rebuild_trace_reads db :
  Forall (λ e, e = Sql SelectSnapshot ∨ ∃ s, e = Sql (SelectUpdatesSince s))
         (rebuild_trace db).
Proof.
  unfold rebuild_trace. destruct (create_from _).
  - apply Forall_cons_2; [by left|]. apply Forall_cons_2; [right; by eexists|constructor].
  - apply Forall_cons_2; [by left|constructor].
Qed.

(** X25.  [GET /sv], [POST /diff] and [GET /get-snapshot] are read-only: whatever
    they answer, the database, the clock and the peer are as before, and
    the only statements issued are the reads of the snapshot row and of the
    pending entries.  [/get-snapshot] never throws, and [/diff] reads nothing
    when the body has no string [sv]. *)
Theorem read_only_endpoints w req_body :
  let reads tr :=
    Forall (λ e, e = Sql SelectSnapshot ∨ ∃ s, e = Sql (SelectUpdatesSince s)) tr in
  (∃ tr, (get_sv peer w).1 = after w (w_db w) tr ∧ reads tr) ∧
  (∃ tr, (post_diff peer req_body w).1 = after w (w_db w) tr ∧ reads tr ∧
         (as_string (opt_field "sv" req_body) = None → tr = [])) ∧
  (∃ resp, get_snapshot peer w = (after w (w_db w) [Sql SelectSnapshot], Ok resp)).
Proof.
  intros reads. split; [|split].
  - rewrite get_sv_spec. eexists. split; [done|]. apply rebuild_trace_reads.
  - rewrite post_diff_spec. destruct (as_string _).
    + eexists. split; [done|]. split; [apply rebuild_trace_reads|done].
    + exists []. rewrite after_nil. split; [done|]. split; [apply Forall_nil_2|done].
  - rewrite get_snapshot_spec. by eexists.
Qed.

(** X26.  [/get-snapshot] shows the snapshot row only: entries appended by
    [/add-count] or [/update] do not show until a compaction folds them. *)
Theorem get_snapshot_lags w cid req_body :
  (get_snapshot peer (get_add_count peer cid w).1).2 = (get_snapshot peer w).2 ∧
  (get_snapshot peer (post_update peer req_body w).1).2 = (get_snapshot peer w).2.
Proof.
  rewrite !get_snapshot_spec, get_add_count_spec. simpl. split.
  - by destruct (add_count_delta _ _).
  - unfold post_update, applyIncomingUpdateB64, _b642U8Arr. monad_unfold.
    destruct (as_string _); [|done]. by destruct (_ =? 0).
Qed.

End SnapshotEndpoint.

Section SnapshotContract.
Context `{E : YEngine} `{!MergeContract} `{!YShared} (peer : Peer).
Implicit Types (w : World peer) (db : DB).

(** X27.  On a reachable database, under the engine's merge contract,
    [/get-snapshot] never answers 500: it shows the root map and the items
    of the document the snapshot row encodes, or [{}] when there is no row
    or the row holds no bytes. *)
Theorem get_snapshot_succeeds w :
  reachable peer (w_db w) →
  ∃ tmp, create_from (snapshot_state (w_db w)) = Some tmp ∧
         (get_snapshot peer w).2
         = Ok (TreeResponse 200 (snapshot_body (snapshot_state (w_db w)) tmp)).
Proof.
  intros [tmp Htmp]%(reachable_snapshot_loads peer).
  exists tmp. by rewrite get_snapshot_spec, Htmp.
Qed.

End SnapshotContract.

(** ** The fake engine meets the contract *)

Module FakeLaws.
Import FakeEngine.

Lemma dec_enc_pos p r : dec_pos (enc_pos p ++ r) = Some (p, r).
Proof. induction p as [p IH|p IH|]; simpl; by rewrite ?IH. Qed.

Lemma dec_enc_N n r : dec_N (enc_N n ++ r) = Some (n, r).
Proof. destruct n; simpl; by rewrite ?dec_enc_pos. Qed.

Lemma dec_enc_Z z r : dec_Z (enc_Z z ++ r) = Some (z, r).
Proof. destruct z; simpl; by rewrite ?dec_enc_pos. Qed.

Lemma dec_enc_raw l r : dec_raw (enc_raw l ++ r) = Some (l, r).
Proof. induction l as [|b l IH]; simpl; by rewrite ?IH. Qed.

Lemma dec_enc_str s r : dec_str (enc_str s ++ r) = Some (s, r).
Proof.
  unfold dec_str, enc_str. rewrite dec_enc_raw. simpl.
  by rewrite String.string_of_list_byte_of_string.
Qed.

Lemma dec_enc_val v r : dec_val (enc_val v ++ r) = Some (v, r).
Proof.
  destruct v as [|[]|n|s]; simpl; try done.
  - by rewrite dec_enc_Z.
  - by rewrite dec_enc_str.
Qed.

Lemma dec_enc_item i r : dec_item (enc_item i ++ r) = Some (i, r).
Proof.
  destruct i as [c k s v]. unfold dec_item, enc_item. simpl.
  rewrite <-!app_assoc, dec_enc_N. simpl.
  rewrite dec_enc_N. simpl. rewrite dec_enc_str. simpl.
  by rewrite dec_enc_val.
Qed.

Lemma dec_enc_items l r fuel :
  (length l < fuel)%nat → dec_items fuel (enc_items l ++ r) = Some (l, r).
Proof.
  revert fuel. induction l as [|i l IH]; intros [|fuel] Hfuel; simpl in *; try lia; [done|].
  rewrite <-app_assoc, dec_enc_item. simpl. rewrite IH by lia. done.
Qed.

Lemma enc_items_length l : (length l < length (enc_items l))%nat.
Proof.
  induction l as [|i l IH]; simpl; [lia|]. rewrite length_app. lia.
Qed.

Lemma readUpdate_enc_items l : readUpdate (enc_items l) = Some l.
Proof.
  unfold readUpdate.
  rewrite <-(app_nil_r (enc_items l)) at 2.
  by rewrite dec_enc_items by apply enc_items_length.
Qed.

Lemma dec_enc_sv l r fuel :
  (length l < fuel)%nat → dec_sv fuel (enc_sv l ++ r) = Some (l, r).
Proof.
  revert fuel. induction l as [|[c n] l IH]; intros [|fuel] Hfuel; simpl in *; try lia; [done|].
  rewrite <-!app_assoc, dec_enc_N. simpl. rewrite dec_enc_N. simpl.
  rewrite IH by lia. done.
Qed.

Lemma enc_sv_length l : (length l < length (enc_sv l))%nat.
Proof.
  induction l as [|[c n] l IH]; simpl; [lia|]. rewrite !length_app. lia.
Qed.

Lemma readStateVector_enc_sv l : readStateVector (enc_sv l) = Some l.
Proof.
  unfold readStateVector.
  rewrite <-(app_nil_r (enc_sv l)) at 2.
  by rewrite dec_enc_sv by apply enc_sv_length.
Qed.

#[global] Instance same_items_equivalence : Equivalence same_items.
Proof.
  split.
  - by intros d i.
  - intros d1 d2 H i. by rewrite (H i).
  - intros d1 d2 d3 H1 H2 i. by rewrite (H1 i), (H2 i).
Qed.

Lemma applyUpdate_Some (d : list item) u d' :
  applyUpdate d u = Some d' ↔ ∃ l, readUpdate u = Some l ∧ d' = list_union d l.
Proof.
  simpl. destruct (readUpdate u) as [l|]; simpl.
  - split; [intros [= <-]; by exists l|intros (? & [= <-] & ->); done].
  - split; [done|by intros (? & ? & _)].
Qed.

#[global, refine] Instance merge_contract : MergeContract :=
  {| doc_equiv := same_items |}.
Proof.
  - intros d1 d2 u d1' Heq (l & Hl & ->)%applyUpdate_Some.
    exists (list_union d2 l). split; [by apply applyUpdate_Some; exists l|].
    intros i. rewrite !list_elem_of_union, (Heq i). done.
  - intros d u v du duv (lu & Hu & ->)%applyUpdate_Some (lv & Hv & ->)%applyUpdate_Some.
    exists (list_union d lv), (list_union (list_union d lv) lu).
    split_and!; [by apply applyUpdate_Some; exists lv|by apply applyUpdate_Some; exists lu|].
    intros i. rewrite !list_elem_of_union. tauto.
  - intros d u du (lu & Hu & ->)%applyUpdate_Some.
    exists (list_union (list_union d lu) lu).
    split; [by apply applyUpdate_Some; exists lu|].
    intros i. rewrite !list_elem_of_union. tauto.
  - intros d. exists (list_union [] d).
    split; [apply applyUpdate_Some; exists d; by rewrite readUpdate_enc_items|].
    intros i. rewrite list_elem_of_union, elem_of_nil. tauto.
  - intros d Hlen. exfalso. pose proof (enc_items_length d).
    unfold byteLength in Hlen. simpl in Hlen. lia.
Defined.

#[global, refine] Instance diff_contract : DiffContract :=
  {| Item := item;
     knows d i := i ∈ (d : list item);
     holds u i := ∃ l, readUpdate u = Some l ∧ i ∈ l;
     dominates sv i := ∃ f, readStateVector sv = Some f ∧ covers f i |}.
Proof.
  - intros d sv delta i. simpl.
    destruct (readStateVector sv) as [f|]; simpl; [|done]. intros [= <-].
    split.
    + intros (l & Hl & Hi). rewrite readUpdate_enc_items in Hl. injection Hl as <-.
      apply list_elem_of_filter in Hi as [Hc Hi]. split; [done|].
      by intros (f' & [= <-] & Hc').
    + intros [Hi Hnd]. eexists. split; [apply readUpdate_enc_items|].
      apply list_elem_of_filter. split; [|done]. intros Hc. apply Hnd. by exists f.
  - intros d i Hi. simpl. exists (frontier d).
    split; [apply readStateVector_enc_sv|].
    unfold covers. apply Is_true_true, existsb_exists.
    exists (client i, (clock i + 1)%N). split.
    + apply list_elem_of_In, list_elem_of_fmap. by exists i.
    + simpl. rewrite N.eqb_refl. simpl. apply N.ltb_lt. lia.
Defined.

#[global] Instance codec_contract : CodecContract.
Proof. split. intros b. apply String.list_byte_of_string_of_list_byte. Qed.

End FakeLaws.

(** ** Concrete runs, on the fake engine *)

Import FakeEngine.

(** The end-to-end script of [test.ts] shows 1 after both [/init], and a
    local [/add-count] followed by [/do-sync] brings both replicas to 2. *)
Example init_shows_one :
  snapshot_count db_init = Some (JNum 1) ∧ snapshot_count db_peer = Some (JNum 1).
Proof. by vm_compute. Qed.

Example sync_converges :
  snapshot_count (w_db (get_do_sync node_peer w_seeded).1) = Some (JNum 2) ∧
  snapshot_count (w_peer (get_do_sync node_peer w_seeded).1) = Some (JNum 2).
Proof. by vm_compute. Qed.

(** Two [/add-count] in a row both start from the snapshot's 1: the
    compacted snapshot shows 2. *)
Example add_count_twice : snapshot_count db_twice = Some (JNum 2).
Proof. by vm_compute. Qed.

(** C1, at the seeded database. *)
Lemma compaction_transparent_witness :
  reachable node_peer (w_db w_seeded) ∧
  reconstructed (w_db w_seeded) = Some (default Y_Doc (durable_doc db_seeded)) ∧
  ∃ d', reconstructed (w_db (syncCompact node_peer w_seeded).1) = Some d' ∧
        d' ≡ default Y_Doc (durable_doc db_seeded) ∧
        (rebuildDurableDoc node_peer w_seeded).2 = Ok (default Y_Doc (durable_doc db_seeded)) ∧
        (rebuildDurableDoc node_peer (syncCompact node_peer w_seeded).1).2 = Ok d'.
Proof.
  split; [apply reachable_run|]. split; [by vm_compute|].
  apply (compaction_transparent node_peer w_seeded); [apply reachable_run|by vm_compute].
Defined.

(** C3, at the poisoned database: the second pending entry is rejected. *)
Lemma compaction_all_or_nothing_witness :
  let tmp := default Y_Doc (create_from (snapshot_state db_poisoned)) in
  let d := default Y_Doc (durable_doc db_seeded) in
  create_from (snapshot_state (w_db w_poisoned)) = Some tmp ∧
  pending (w_db w_poisoned) = take 1 (pending db_poisoned) ++ [(2, from_base64 "x")] ∧
  replay tmp (take 1 (pending db_poisoned)) = Some d ∧
  applyUpdate d (from_base64 "x") = None ∧
  (syncCompact node_peer w_poisoned).2 = Throw (Error "failed to apply pending updates") ∧
  w_db (syncCompact node_peer w_poisoned).1 = w_db w_poisoned ∧
  (post_compact node_peer w_poisoned).2
    = Ok (Response 500 (JObj [("error", JVal (JStr "internal_error"))])) ∧
  w_db (post_compact node_peer w_poisoned).1 = w_db w_poisoned.
Proof.
  intros tmp d.
  split; [by vm_compute|]. split; [by vm_compute|].
  split; [by vm_compute|]. split; [by vm_compute|].
  apply (compaction_all_or_nothing node_peer w_poisoned tmp
           (take 1 (pending db_poisoned)) 2 (from_base64 "x") [] d); by vm_compute.
Defined.

(** C4, at the seeded database: the watermark moves from 0 to 1. *)
Lemma compaction_watermark_witness :
  let w' := (syncCompact node_peer w_seeded).1 in
  let res := {| applied := 1; deleted := 1; before_last_seq := 0; after_last_seq := 1;
                snapshot_bytes := 81 |} in
  syncCompact node_peer w_seeded = (w', Ok res) ∧
  watermark (w_db w_seeded) ≤ watermark (w_db w') ∧
  (pending (w_db w_seeded) ≠ [] →
   watermark (w_db w') = 1 ∧
   (∃ u, (watermark (w_db w'), u) ∈ pending (w_db w_seeded)) ∧
   (∀ s u, (s, u) ∈ pending (w_db w_seeded) → s ≤ watermark (w_db w')) ∧
   (∀ r, r ∈ retained (w_db w') ↔
         r ∈ retained (w_db w_seeded) ∧ watermark (w_db w') < updates.seq r)).
Proof.
  intros w' res.
  assert (syncCompact node_peer w_seeded = (w', Ok res)) as Hrun by by vm_compute.
  split; [exact Hrun|].
  exact (compaction_watermark node_peer w_seeded w' res Hrun).
Defined.

(** C5, after [/add-count] on the initialised database. *)
Lemma retained_above_watermark_witness :
  reachable node_peer db_init ∧
  db_step node_peer (GET_add_count 11) db_init db_seeded ∧
  updates.Row DOC_ID 1 (default [] (add_count_delta 11 (snapshot_state db_init))) "local" 5
    ∈ retained db_seeded ∧
  watermark db_seeded < 1.
Proof.
  assert (db_step node_peer (GET_add_count 11) db_init db_seeded) as Hstep.
  { exists 5, db_peer, []. by vm_compute. }
  assert (updates.Row DOC_ID 1 (default [] (add_count_delta 11 (snapshot_state db_init)))
            "local" 5 ∈ retained db_seeded) as Hin.
  { vm_compute. apply list_elem_of_here. }
  split; [apply reachable_run|]. split; [exact Hstep|]. split; [exact Hin|].
  exact (retained_above_watermark node_peer _ _ _ _ (reachable_run _ _ _ _) Hstep Hin).
Defined.

(** C6, at the seeded database, against the summary of the peer. *)
Lemma post_diff_contract_witness :
  let sv := encodeStateVector (default Y_Doc (durable_doc db_peer)) in
  let d := default Y_Doc (durable_doc db_seeded) in
  let delta := default [] (encodeStateAsUpdateFrom d sv) in
  (post_diff node_peer (Some (JObj [("sv", JVal (JStr (to_base64 sv)))])) w_seeded).2
  = Ok (Response 200 (JObj [("update", JVal (JStr (to_base64 delta)))])) ∧
  (∀ i, holds delta i ↔ knows d i ∧ ¬ dominates (from_base64 (to_base64 sv)) i).
Proof.
  intros sv d delta.
  destruct (post_diff_contract node_peer w_seeded
              (Some (JObj [("sv", JVal (JStr (to_base64 sv)))])) (to_base64 sv) d delta)
    as (Hresp & _ & Hexact & _); by vm_compute.
Defined.


(** C8 as stated fails: the snapshot [/init] writes is neither empty nor the
    state of an empty document; it is a document whose [count] is 1, as the
    end-to-end script expects. *)
Lemma init_snapshot_not_empty :
  snapshot_state db_init ≠ Some [] ∧
  snapshot_state db_init ≠ Some (encodeStateAsUpdate Y_Doc) ∧
  snapshot_count db_init = Some (JNum 1) ∧
  root_get Y_Doc "count" = None ∧
  watermark db_init = 0.
Proof. by vm_compute. Qed.

(** C9, at the seeded database: its pending delta comes again through
    [/update]. *)
Lemma duplicate_delivery_witness :
  let u := default [] (add_count_delta 11 (snapshot_state db_init)) in
  let req_body := Some (JObj [("update", JVal (JStr (to_base64 u)))]) in
  let d := default Y_Doc (durable_doc db_seeded) in
  delivered node_peer u (w_db w_seeded) ∧
  (rebuildDurableDoc node_peer w_seeded).2 = Ok d ∧
  ∃ d', (rebuildDurableDoc node_peer (post_update node_peer req_body w_seeded).1).2 = Ok d' ∧
        d' ≡ d ∧
        length (tbl_updates (w_db (post_update node_peer req_body w_seeded).1)) = 2%nat.
Proof.
  intros u req_body d.
  assert (delivered node_peer u (w_db w_seeded)) as Hdelivered.
  { exists db_seeded, (updates.Row DOC_ID 1 u "local" 5).
    split; [apply reachable_run|]. split; [vm_compute; apply list_elem_of_here|].
    split; [done|constructor]. }
  split; [exact Hdelivered|]. split; [by vm_compute|].
  destruct (duplicate_delivery node_peer w_seeded req_body (to_base64 u) u d Hdelivered)
    as (d' & Hd' & Heq & _ & Hlog); [by vm_compute..|].
  exists d'. split; [done|]. split; [done|]. by rewrite Hlog.
Defined.


(** *** Further runs *)

(** X3, at the seeded database: a second entry comes back after the first. *)
Lemma append_then_load_witness :
  let u := from_base64 "abc" in
  let seq := sqlite_sequence (w_db w_seeded) + 1 in
  reachable node_peer (w_db w_seeded) ∧
  0 ≤ sqlite_sequence (w_db w_seeded) ∧
  (dbInsertUpdate node_peer u "remote" w_seeded).2 = Ok seq ∧
  ∃ l, (dbLoadUpdatesSince node_peer 0 w_seeded).2 = Ok l ∧
       (dbLoadUpdatesSince node_peer 0 (dbInsertUpdate node_peer u "remote" w_seeded).1).2
       = Ok (l ++ [(seq, u)]).
Proof.
  intros u seq. split; [apply reachable_run|]. split; [by vm_compute|].
  apply (append_then_load node_peer w_seeded u "remote" 0); [apply reachable_run|by vm_compute].
Defined.

(** X7, for the [/add-count] that leads to the seeded database. *)
Lemma sequences_never_reused_witness :
  db_step node_peer (GET_add_count 11) db_init db_seeded ∧
  sqlite_sequence db_init ≤ sqlite_sequence db_seeded ∧
  ∀ r, r ∈ tbl_updates db_seeded →
       r ∈ tbl_updates db_init ∨
       sqlite_sequence db_init < updates.seq r ≤ sqlite_sequence db_seeded.
Proof.
  assert (db_step node_peer (GET_add_count 11) db_init db_seeded) as Hstep.
  { exists 5, db_peer, []. by vm_compute. }
  split; [exact Hstep|].
  exact (sequences_never_reused node_peer (GET_add_count 11) db_init db_seeded Hstep).
Defined.

(** X8, for the same step. *)
Lemma other_documents_untouched_witness :
  db_step node_peer (GET_add_count 11) db_init db_seeded ∧
  filter (λ r, updates.doc_id r ≠ DOC_ID) (tbl_updates db_seeded)
  = filter (λ r, updates.doc_id r ≠ DOC_ID) (tbl_updates db_init) ∧
  ∀ k, k ≠ DOC_ID → tbl_snapshots db_seeded !! k = tbl_snapshots db_init !! k.
Proof.
  assert (db_step node_peer (GET_add_count 11) db_init db_seeded) as Hstep.
  { exists 5, db_peer, []. by vm_compute. }
  split; [exact Hstep|].
  exact (other_documents_untouched node_peer (GET_add_count 11) db_init db_seeded Hstep).
Defined.

(** X9, at the seeded database. *)
Lemma reachable_log_shape_witness :
  reachable node_peer db_seeded ∧
  StronglySorted (λ r1 r2, updates.seq r1 < updates.seq r2) (tbl_updates db_seeded) ∧
  Forall (λ r, updates.doc_id r = DOC_ID ∧
               watermark db_seeded < updates.seq r ≤ sqlite_sequence db_seeded)
         (tbl_updates db_seeded) ∧
  pending db_seeded = as_pending <$> tbl_updates db_seeded.
Proof.
  split; [apply reachable_run|].
  exact (reachable_log_shape node_peer db_seeded (reachable_run _ _ _ _)).
Defined.

(** X10, a compaction of the seeded database moves the watermark from 0 to 1. *)
Lemma watermark_monotone_witness :
  let db := serve_db node_peer 5 db_peer db_seeded POST_compact in
  same_incarnation node_peer db_seeded db ∧
  watermark db_seeded = 0 ∧ watermark db = 1 ∧
  watermark db_seeded ≤ watermark db.
Proof.
  intros db.
  assert (same_incarnation node_peer db_seeded db) as Hsame.
  { apply (incarnation_step _ _ POST_compact db_seeded); [constructor|done|].
    by exists 5, db_peer, []. }
  split; [exact Hsame|]. split; [by vm_compute|]. split; [by vm_compute|].
  exact (watermark_monotone node_peer db_seeded db Hsame).
Defined.

(** X14, at the seeded database: its one entry is folded and deleted. *)
Lemma compaction_empties_log_witness :
  let res := {| applied := 1; deleted := 1; before_last_seq := 0; after_last_seq := 1;
                snapshot_bytes := 81 |} in
  reachable node_peer (w_db w_seeded) ∧
  (syncCompact node_peer w_seeded).2 = Ok res ∧
  tbl_updates (w_db (syncCompact node_peer w_seeded).1) = [] ∧
  applied res = Z.of_nat (length (tbl_updates (w_db w_seeded))) ∧
  deleted res = applied res.
Proof.
  intros res. split; [apply reachable_run|]. split; [by vm_compute|].
  apply (compaction_empties_log node_peer w_seeded res); [apply reachable_run|by vm_compute].
Defined.

(** X15, at the poisoned database, after one more [/add-count]. *)
Lemma rejected_entry_wedges_witness :
  let tmp := default Y_Doc (create_from (snapshot_state db_poisoned)) in
  let w := mkWorld (peer:=node_peer)
             (serve_db node_peer 5 db_peer db_poisoned (GET_add_count 12)) 5 db_peer [] in
  reachable node_peer db_poisoned ∧
  create_from (snapshot_state db_poisoned) = Some tmp ∧
  replay tmp (pending db_poisoned) = None ∧
  same_incarnation node_peer db_poisoned (w_db w) ∧
  length (tbl_updates (w_db w)) = 3%nat ∧
  (syncCompact node_peer w).2 = Throw (Error "failed to apply pending updates") ∧
  w_db (syncCompact node_peer w).1 = w_db w ∧
  (post_compact node_peer w).2
  = Ok (Response 500 (JObj [("error", JVal (JStr "internal_error"))])) ∧
  (rebuildDurableDoc node_peer w).2 = Throw Y_error ∧
  get_do_sync node_peer w
  = (after w (w_db w) (compact_trace (w_db w)),
     Throw (Error "failed to apply pending updates")).
Proof.
  intros tmp w.
  assert (same_incarnation node_peer db_poisoned (w_db w)) as Hsame.
  { apply (incarnation_step _ _ (GET_add_count 12) db_poisoned); [constructor|done|].
    by exists 5, db_peer, []. }
  split; [apply reachable_run|]. split; [by vm_compute|]. split; [by vm_compute|].
  split; [exact Hsame|]. split; [by vm_compute|].
  apply (rejected_entry_wedges node_peer db_poisoned tmp w);
    [apply reachable_run|by vm_compute|by vm_compute|exact Hsame].
Defined.

(** X16, at the seeded database. *)
Lemma compaction_rerun_report_witness :
  let res := {| applied := 1; deleted := 1; before_last_seq := 0; after_last_seq := 1;
                snapshot_bytes := 81 |} in
  (syncCompact node_peer w_seeded).2 = Ok res ∧
  (syncCompact node_peer (syncCompact node_peer w_seeded).1).2
  = Ok {| applied := 0; deleted := 0; before_last_seq := 1; after_last_seq := 1;
          snapshot_bytes := 81 |}.
Proof.
  intros res. split; [by vm_compute|].
  apply (compaction_rerun_report node_peer w_seeded res). by vm_compute.
Defined.

(** X17, at the seeded database. *)
Lemma snapshot_always_loads_witness :
  reachable node_peer (w_db w_seeded) ∧
  (∀ b, snapshot_state (w_db w_seeded) = Some b → ∃ d, b = encodeStateAsUpdate d) ∧
  (∃ d, (load_snapshot node_peer (snapshot_state (w_db w_seeded)) w_seeded).2 = Ok d) ∧
  (∀ e, (syncCompact node_peer w_seeded).2 = Throw e →
        e = Error "failed to apply pending updates").
Proof.
  split; [apply reachable_run|].
  exact (snapshot_always_loads node_peer w_seeded (reachable_run _ _ _ _)).
Defined.


(** X27, at the seeded database: the view shows the seed, not the pending increment. *)
Lemma get_snapshot_succeeds_witness :
  let tmp := default Y_Doc (create_from (snapshot_state db_seeded)) in
  reachable node_peer (w_db w_seeded) ∧
  snapshot_body (snapshot_state (w_db w_seeded)) tmp
  = TObj [("ok", TVal (JBool true));
          ("snapshot", TObj [("root", TObj [("count", TVal (JNum 1));
                                            ("message", TVal (JStr "Hello"))]);
                             ("items", TArr [])])] ∧
  ∃ tmp', create_from (snapshot_state (w_db w_seeded)) = Some tmp' ∧
          (get_snapshot node_peer w_seeded).2
          = Ok (TreeResponse 200 (snapshot_body (snapshot_state (w_db w_seeded)) tmp')).
Proof.
  intros tmp. split; [apply reachable_run|]. split; [by vm_compute|].
  exact (get_snapshot_succeeds node_peer w_seeded (reachable_run _ _ _ _)).
Defined.
